(** * A mark-and-sweep collector over a heap of tagged objects

    Shallow embedding of [src/main.c]: the object store is a finite map from
    addresses to objects, the [VM] structure is a record, and every function
    of the source is a function on that state.  The build with assertions
    enabled is the one modelled: a failed [assert] aborts the program, which
    is the outcome [Fault]. *)

From stdpp Require Import gmap list relations.

Local Open Scope Z_scope.

(** ** Constants and machine integers *)

Definition GC_INITIAL_THRESHOLD : Z := 8.
Definition STACK_MAX : Z := 256.

(** [size_t] is taken to be 64 bits wide; arithmetic on it wraps around. *)
Definition SIZE_WIDTH : Z := 64.
Definition wrap (x : Z) : Z := x mod 2 ^ SIZE_WIDTH.

(** Pointers are addresses; the null pointer is address zero. *)
Abbreviation addr := N.
Definition NULL : addr := 0%N.

(** [malloc] hands out storage aligned for an [Object], which holds
    pointers: eight bytes on the 64-bit target. *)
Definition OBJECT_ALIGN : N := 8%N.
Definition ADDR_LIMIT : N := (2 ^ 64)%N.

(** ** Objects *)

Inductive ObjectType := OBJECT_TYPE_INT | OBJECT_TYPE_PAIR.

(** The [type] tag together with the anonymous union it discriminates. *)
Inductive Payload :=
  | Int (value : Z)
  | Pair (head tail : addr).

(** [mark] is an [unsigned char] that the program only ever sets to 0 or 1
    and only ever tests against zero. *)
Record Object := mkObject {
  mark : bool;
  next : addr;
  payload : Payload
}.

Definition type (o : Object) : ObjectType :=
  match payload o with
  | Int _ => OBJECT_TYPE_INT
  | Pair _ _ => OBJECT_TYPE_PAIR
  end.

Definition with_mark (b : bool) (o : Object) : Object :=
  mkObject b (next o) (payload o).
Definition with_next (p : addr) (o : Object) : Object :=
  mkObject (mark o) p (payload o).
Definition with_payload (pl : Payload) (o : Object) : Object :=
  mkObject (mark o) (next o) pl.

(** The store of all objects obtained from [malloc] and not yet freed. *)
Abbreviation Mem := (gmap N Object).

(** ** The virtual machine *)

(** The five fields of [VM], and the object store they point into. *)
Record VM := mkVM {
  first_object : addr;
  object_num : Z;
  object_max : Z;
  stack_size : Z;
  stack : list addr;
  heap : gmap N Object
}.

Definition with_first_object (p : addr) (s : VM) : VM :=
  mkVM p (object_num s) (object_max s) (stack_size s) (stack s) (heap s).
Definition with_object_num (n : Z) (s : VM) : VM :=
  mkVM (first_object s) n (object_max s) (stack_size s) (stack s) (heap s).
Definition with_object_max (n : Z) (s : VM) : VM :=
  mkVM (first_object s) (object_num s) n (stack_size s) (stack s) (heap s).
Definition with_stack_size (n : Z) (s : VM) : VM :=
  mkVM (first_object s) (object_num s) (object_max s) n (stack s) (heap s).
Definition with_stack (l : list addr) (s : VM) : VM :=
  mkVM (first_object s) (object_num s) (object_max s) (stack_size s) l (heap s).
Definition with_heap (m : gmap N Object) (s : VM) : VM :=
  mkVM (first_object s) (object_num s) (object_max s) (stack_size s) (stack s) m.

(** ** Outcomes *)

(** [Done] is a normal return.  [Fault] is a failed assertion or a
    dereference of a pointer that is not a live object.  [OutOfFuel] is an
    artefact of the embedding: the recursion or loop budget ran out. *)
Inductive result (A : Type) :=
  | Done (a : A)
  | Fault
  | OutOfFuel.
Arguments Done {A} a.
Arguments Fault {A}.
Arguments OutOfFuel {A}.

#[global] Instance result_ret : MRet result := λ A a, Done a.
#[global] Instance result_bind : MBind result := λ A B f r,
  match r with
  | Done a => f a
  | Fault => Fault
  | OutOfFuel => OutOfFuel
  end.

(** [*p] for an object pointer [p]. *)
Definition deref (m : gmap N Object) (p : addr) : result Object :=
  match m !! p with
  | Some o => Done o
  | None => Fault
  end.

(** [vm->stack[i]]. *)
Definition stack_at (s : VM) (i : Z) : result addr :=
  if (0 <=? i) && (i <? STACK_MAX) then
    match stack s !! Z.to_nat i with
    | Some r => Done r
    | None => Fault
    end
  else Fault.

(** ** Creation, push and pop *)

(** [new_vm]: [vm] is what [malloc] returned, and [stack0] is what the
    stack array, which is not initialised, happens to hold. *)
Definition new_vm (vm : addr) (stack0 : list addr) : result VM :=
  if (vm =? NULL)%N then Fault
  else Done (mkVM NULL 0 GC_INITIAL_THRESHOLD 0 stack0 ∅).

Definition vm_push (s : VM) (value : addr) : result VM :=
  if stack_size s <? STACK_MAX then
    Done (with_stack_size (wrap (stack_size s + 1))
           (with_stack (<[Z.to_nat (stack_size s) := value]> (stack s)) s))
  else Fault.

Definition vm_pop (s : VM) : result (VM * addr) :=
  if 0 <? stack_size s then
    let s1 := with_stack_size (wrap (stack_size s - 1)) s in
    r ← stack_at s1 (stack_size s1);
    Done (s1, r)
  else Fault.

(** ** The collector *)

(** [gc_mark]: [fuel] bounds the depth of the recursion.  The second
    recursive call reads [obj->tail] from memory as it is after the first
    call has returned. *)
Fixpoint gc_mark (fuel : nat) (m : gmap N Object) (obj : addr)
  : result (gmap N Object) :=
  match fuel with
  | O => OutOfFuel
  | S fuel' =>
    o ← deref m obj;
    if mark o then Done m
    else
      let m1 := <[obj := with_mark true o]> m in
      match type o with
      | OBJECT_TYPE_PAIR =>
        o1 ← deref m1 obj;
        match payload o1 with
        | Pair h _ =>
          m2 ← gc_mark fuel' m1 h;
          o2 ← deref m2 obj;
          match payload o2 with
          | Pair _ t => gc_mark fuel' m2 t
          | Int _ => Fault
          end
        | Int _ => Fault
        end
      | OBJECT_TYPE_INT => Done m1
      end
  end.

(** The body of the [for] loop of [gc_mark_all], over the indices [idx]
    still to visit. *)
Fixpoint gc_mark_all_loop (fuel : nat) (s : VM) (idx : list Z)
    (m : gmap N Object) : result (gmap N Object) :=
  match idx with
  | [] => Done m
  | i :: idx' =>
    r ← stack_at s i;
    m' ← gc_mark fuel m r;
    gc_mark_all_loop fuel s idx' m'
  end.

Definition gc_mark_all (fuel : nat) (s : VM) : result VM :=
  m ← gc_mark_all_loop fuel s (seqZ 0 (stack_size s)) (heap s);
  Done (with_heap m s).

(** The cursor [Object **obj] of [gc_sweep] points either at
    [vm->first_object] or at the [next] field of an object. *)
Inductive Slot :=
  | SlotFirst
  | SlotNext (a : addr).

(** [*obj] *)
Definition load_slot (s : VM) (sl : Slot) : result addr :=
  match sl with
  | SlotFirst => Done (first_object s)
  | SlotNext a => o ← deref (heap s) a; Done (next o)
  end.

(** [*obj = p] *)
Definition store_slot (s : VM) (sl : Slot) (p : addr) : result VM :=
  match sl with
  | SlotFirst => Done (with_first_object p s)
  | SlotNext a =>
    o ← deref (heap s) a;
    Done (with_heap (<[a := with_next p o]> (heap s)) s)
  end.

(** The [while] loop of [gc_sweep]; [fuel] bounds the iterations. *)
Fixpoint gc_sweep_loop (fuel : nat) (s : VM) (obj : Slot) : result VM :=
  match fuel with
  | O => OutOfFuel
  | S fuel' =>
    p ← load_slot s obj;
    if (p =? NULL)%N then Done s
    else
      o ← deref (heap s) p;
      if negb (mark o) then
        let unreached := p in
        s1 ← store_slot s obj (next o);
        let s2 := with_heap (delete unreached (heap s1)) s1 in
        let s3 := with_object_num (wrap (object_num s2 - 1)) s2 in
        gc_sweep_loop fuel' s3 obj
      else
        let s1 := with_heap (<[p := with_mark false o]> (heap s)) s in
        gc_sweep_loop fuel' s1 (SlotNext p)
  end.

Definition gc_sweep (fuel : nat) (s : VM) : result VM :=
  gc_sweep_loop fuel s SlotFirst.

(** [gc]; the diagnostic [printf] of the debug build is left out. *)
Definition gc (fuel : nat) (s : VM) : result VM :=
  if object_num s =? 0 then Done s
  else
    s1 ← gc_mark_all fuel s;
    s2 ← gc_sweep fuel s1;
    Done (with_object_max
            (if negb (object_num s2 =? 0) then wrap (object_num s2 * 2)
             else GC_INITIAL_THRESHOLD) s2).

(** ** Allocation and the mutator operations *)

(** Contents of the union of a freshly allocated object.  [malloc] leaves
    them indeterminate; both callers overwrite them before anything reads
    them. *)
Definition fresh_payload (t : ObjectType) : Payload :=
  match t with
  | OBJECT_TYPE_INT => Int 0
  | OBJECT_TYPE_PAIR => Pair NULL NULL
  end.

(** The first statement of [new_object]: collect when the count has
    reached the threshold. *)
Definition collect_if_full (fuel : nat) (s : VM) : result VM :=
  if object_num s =? object_max s then gc fuel s else Done s.

(** [new_object]: [malloc] stands for the allocator, as a function of the
    store at the moment it is called; a null result fails the assertion. *)
Definition new_object (malloc : gmap N Object → addr) (fuel : nat) (s : VM)
    (t : ObjectType) : result (VM * addr) :=
  s1 ← collect_if_full fuel s;
  let obj := malloc (heap s1) in
  if (obj =? NULL)%N then Fault
  else
    let o := mkObject false (first_object s1) (fresh_payload t) in
    let s2 := with_heap (<[obj := o]> (heap s1)) s1 in
    let s3 := with_first_object obj s2 in
    Done (with_object_num (wrap (object_num s3 + 1)) s3, obj).

(** [obj->value = v] *)
Definition store_value (s : VM) (obj : addr) (v : Z) : result VM :=
  o ← deref (heap s) obj;
  match payload o with
  | Int _ => Done (with_heap (<[obj := with_payload (Int v) o]> (heap s)) s)
  | Pair _ _ => Fault
  end.

(** [obj->head = p] *)
Definition store_head (s : VM) (obj : addr) (p : addr) : result VM :=
  o ← deref (heap s) obj;
  match payload o with
  | Pair _ t => Done (with_heap (<[obj := with_payload (Pair p t) o]> (heap s)) s)
  | Int _ => Fault
  end.

(** [obj->tail = p] *)
Definition store_tail (s : VM) (obj : addr) (p : addr) : result VM :=
  o ← deref (heap s) obj;
  match payload o with
  | Pair h _ => Done (with_heap (<[obj := with_payload (Pair h p) o]> (heap s)) s)
  | Int _ => Fault
  end.

Definition vm_push_int (malloc : gmap N Object → addr) (fuel : nat) (s : VM)
    (value : Z) : result (VM * addr) :=
  '(s1, obj) ← new_object malloc fuel s OBJECT_TYPE_INT;
  s2 ← store_value s1 obj value;
  s3 ← vm_push s2 obj;
  Done (s3, obj).

Definition vm_push_pair (malloc : gmap N Object → addr) (fuel : nat) (s : VM)
  : result (VM * addr) :=
  '(s1, obj) ← new_object malloc fuel s OBJECT_TYPE_PAIR;
  '(s2, t) ← vm_pop s1;
  s3 ← store_tail s2 obj t;
  '(s4, h) ← vm_pop s3;
  s5 ← store_head s4 obj h;
  s6 ← vm_push s5 obj;
  Done (s6, obj).

(** [free_vm]: the state returned is the one at the call of [free(vm)]. *)
Definition free_vm (fuel : nat) (s : VM) : result VM :=
  gc fuel (with_stack_size 0 s).

(** ** A concrete allocator and the scenarios of the test functions *)

(** A bump allocator: the next aligned address above every live object,
    or null when the address space is used up. *)
Definition bump (m : gmap N Object) : addr :=
  let top := map_fold (λ a _ acc, N.max a acc) 0%N m in
  let a := (OBJECT_ALIGN * (1 + top / OBJECT_ALIGN))%N in
  if (a <? ADDR_LIMIT)%N then a else NULL.

Definition state_of {A} (r : result (VM * A)) (d : VM) : VM :=
  match r with Done (s, _) => s | _ => d end.
Definition value_of {A} (r : result A) (d : A) : A :=
  match r with Done a => a | _ => d end.

Definition vm0 : VM :=
  value_of (new_vm 1%N (replicate (Z.to_nat STACK_MAX) NULL))
    (mkVM NULL 0 0 0 [] ∅).

Definition run_push_int (v : Z) (s : VM) : VM :=
  state_of (vm_push_int bump 64 s v) s.
Definition run_push_pair (s : VM) : VM :=
  state_of (vm_push_pair bump 64 s) s.
Definition run_pop (s : VM) : VM := state_of (vm_pop s) s.
Definition run_gc (s : VM) : VM := value_of (gc 64 s) s.

(** [test3] up to its call of [gc]. *)
Definition test3_state : VM :=
  run_push_pair (run_push_pair (run_push_int 4 (run_push_int 3
    (run_push_pair (run_push_int 2 (run_push_int 1 vm0)))))).

(** [test4] up to its call of [gc]: two pairs made to point at each other. *)
Definition test4_state : VM :=
  let s := run_push_pair (run_push_int 4 (run_push_int 3
             (run_push_pair (run_push_int 2 (run_push_int 1 vm0))))) in
  let a := value_of (stack_at s 0) NULL in
  let b := value_of (stack_at s 1) NULL in
  let s1 := value_of (store_tail s a b) s in
  value_of (store_tail s1 b a) s1.

(** Eight integers pushed and six popped again: two operands on the stack
    and the count at the threshold, so that the next allocation collects. *)
Definition full_state : VM :=
  run_pop (run_pop (run_pop (run_pop (run_pop (run_pop
    (run_push_int 8 (run_push_int 7 (run_push_int 6 (run_push_int 5
      (run_push_int 4 (run_push_int 3 (run_push_int 2
        (run_push_int 1 vm0))))))))))))).

(** One integer, still on the stack. *)
Definition one_int_state : VM := run_push_int 1 vm0.

(** ** Vocabulary of the specification *)

(** [chain m p l]: following [next] from [p] visits exactly the objects
    [l], in order, and then reaches the null pointer. *)
Fixpoint chain (m : gmap N Object) (p : addr) (l : list addr) : Prop :=
  match l with
  | [] => p = NULL
  | a :: l' => p = a ∧ a ≠ NULL ∧ ∃ o, m !! a = Some o ∧ chain m (next o) l'
  end.

(** A pair refers to its head and to its tail. *)
Definition edge (m : gmap N Object) (x y : addr) : Prop :=
  ∃ o h t, m !! x = Some o ∧ payload o = Pair h t ∧ (y = h ∨ y = t).

Definition reach (m : gmap N Object) : addr → addr → Prop := rtc (edge m).

(** The Root Set: the entries of the stack array below [stack_size]. *)
Definition roots (s : VM) : list addr :=
  take (Z.to_nat (stack_size s)) (stack s).

Definition rooted (s : VM) (a : addr) : Prop :=
  ∃ r, r ∈ roots s ∧ reach (heap s) r a.

Definition is_marked (m : gmap N Object) (a : addr) : bool :=
  match m !! a with
  | Some o => mark o
  | None => false
  end.

Definition marked (m : gmap N Object) (a : addr) : Prop :=
  is_marked m a = true.

#[global] Instance marked_dec m a : Decision (marked m a) :=
  decide (is_marked m a = true).

(** No pair refers to storage that is not a live object. *)
Definition closed (m : gmap N Object) : Prop :=
  ∀ x y, edge m x y → is_Some (m !! y).

(** What [malloc] guarantees of a non-null result. *)
Definition placed (a : addr) : Prop :=
  a ≠ NULL ∧ (a < ADDR_LIMIT)%N ∧ (a mod OBJECT_ALIGN = 0)%N.

Definition malloc_sound (malloc : gmap N Object → addr) : Prop :=
  ∀ m, malloc m = NULL ∨ (m !! malloc m = None ∧ placed (malloc m)).

Definition stack_ok (s : VM) : Prop :=
  0 ≤ stack_size s ≤ STACK_MAX ∧ length (stack s) = Z.to_nat STACK_MAX.

(** The heap chain holds every live object once, and [object_num] counts
    them. *)
Definition chained (s : VM) (l : list addr) : Prop :=
  chain (heap s) (first_object s) l ∧ NoDup l ∧
  (∀ a, a ∈ l ↔ is_Some (heap s !! a)) ∧
  object_num s = Z.of_nat (length l).

(** Well-formed states: what holds between any two operations. *)
Definition wf (s : VM) : Prop :=
  (∃ l, chained s l) ∧
  (∀ a o, heap s !! a = Some o → mark o = false ∧ placed a) ∧
  closed (heap s) ∧
  stack_ok s ∧
  (∀ r, r ∈ roots s → is_Some (heap s !! r)).

(** What a collection cycle that started in [s] and ended in [s'] has
    done. *)
Definition collected (s s' : VM) : Prop :=
  (∃ l', chained s' l' ∧ ∀ a, a ∈ l' ↔ rooted s a) ∧
  stack s' = stack s ∧ stack_size s' = stack_size s ∧
  (∀ a o', heap s' !! a = Some o' →
     ∃ o, heap s !! a = Some o ∧ payload o' = payload o ∧
          mark o' = false) ∧
  object_num s' ≤ object_num s ∧
  object_max s' =
    (if object_num s =? 0 then object_max s
     else if object_num s' =? 0 then GC_INITIAL_THRESHOLD
     else object_num s' * 2) ∧
  wf s'.

(** The bounds on the threshold that the operations maintain. *)
Definition threshold_inv (s : VM) : Prop :=
  2 ≤ object_max s ∧ object_num s ≤ object_max s ∧
  (object_num s = 0 → object_max s = GC_INITIAL_THRESHOLD).

(** States that the operations can produce from a new machine.  The
    mutator may push any live object and, as [test4] does, redirect the
    fields of a pair to live objects. *)
Inductive reachable : VM → Prop :=
  | reachable_new vm stack0 s :
      length stack0 = Z.to_nat STACK_MAX →
      new_vm vm stack0 = Done s → reachable s
  | reachable_push s v s' :
      reachable s → is_Some (heap s !! v) → vm_push s v = Done s' →
      reachable s'
  | reachable_pop s s' r :
      reachable s → vm_pop s = Done (s', r) → reachable s'
  | reachable_push_int malloc fuel s v s' o :
      reachable s → malloc_sound malloc →
      vm_push_int malloc fuel s v = Done (s', o) → reachable s'
  | reachable_push_pair malloc fuel s s' o :
      reachable s → malloc_sound malloc →
      vm_push_pair malloc fuel s = Done (s', o) → reachable s'
  | reachable_gc fuel s s' :
      reachable s → gc fuel s = Done s' → reachable s'
  | reachable_store_head s a b s' :
      reachable s → is_Some (heap s !! b) → store_head s a b = Done s' →
      reachable s'
  | reachable_store_tail s a b s' :
      reachable s → is_Some (heap s !! b) → store_tail s a b = Done s' →
      reachable s'.

(** [m'] differs from [m] only in that more objects are marked. *)
Definition mark_ext (m m' : gmap N Object) : Prop :=
  ∀ a, match m !! a, m' !! a with
       | Some o, Some o' =>
         next o' = next o ∧ payload o' = payload o ∧
         (mark o = true → mark o' = true)
       | None, None => True
       | _, _ => False
       end.

(** ** The stress loop of [perf_test] *)

(** Conversion of a [size_t] to the [int] parameter of [vm_push_int]. *)
Definition to_int (x : Z) : Z := (x + 2 ^ 31) mod 2 ^ 32 - 2 ^ 31.

(** [for (j = ...; j < round; ++j) vm_push_int(vm, i + j)], with [n]
    iterations still to run. *)
Fixpoint perf_push (malloc : gmap N Object → addr) (fuel : nat) (s : VM)
    (i j : Z) (n : nat) : result VM :=
  match n with
  | O => Done s
  | S n' =>
    '(s1, _) ← vm_push_int malloc fuel s (to_int (wrap (i + j)));
    perf_push malloc fuel s1 i (wrap (j + 1)) n'
  end.

(** [for (j = ...; j < round; ++j) vm_pop(vm)], with [n] iterations still
    to run. *)
Fixpoint perf_pop (s : VM) (n : nat) : result VM :=
  match n with
  | O => Done s
  | S n' => '(s1, _) ← vm_pop s; perf_pop s1 n'
  end.

(** The body of the outer loop; [r] is what [rand()] returned. *)
Definition perf_round (malloc : gmap N Object → addr) (fuel : nat) (s : VM)
    (i r : Z) : result VM :=
  let round := wrap (Z.rem r STACK_MAX + 1) in
  s1 ← perf_push malloc fuel s i 0 (Z.to_nat round);
  perf_pop s1 (Z.to_nat round).

Fixpoint perf_loop (malloc : gmap N Object → addr) (fuel : nat)
    (rand : Z → Z) (s : VM) (idx : list Z) : result VM :=
  match idx with
  | [] => Done s
  | i :: idx' =>
    s1 ← perf_round malloc fuel s i (rand i);
    perf_loop malloc fuel rand s1 idx'
  end.

(** [perf_test]: [rand i] is what the call of [rand()] in iteration [i]
    returns; the state returned is the one at the call of [free(vm)]. *)
Definition perf_test (malloc : gmap N Object → addr) (fuel : nat)
    (rand : Z → Z) (vm : addr) (stack0 : list addr) : result VM :=
  s ← new_vm vm stack0;
  s1 ← perf_loop malloc fuel rand s (seqZ 0 1000);
  free_vm fuel s1.

(** A first-fit allocator: the lowest aligned address that is free. *)
Definition first_fit (m : gmap N Object) : addr :=
  let cands := (λ k, OBJECT_ALIGN * N.of_nat (S k))%N <$> seq 0 (S (size m)) in
  match filter (λ a, m !! a = None) cands with
  | a :: _ => if (a <? ADDR_LIMIT)%N then a else NULL
  | [] => NULL
  end.

(** [test4] after the mark phase of its call of [gc]. *)
Definition test4_marked : VM :=
  value_of (gc_mark_all 64 test4_state) test4_state.

(** ** Further vocabulary *)

(** An edge to an object that is not marked. *)
Definition white_edge (m : gmap N Object) (x y : addr) : Prop :=
  edge m x y ∧ is_marked m y = false.

(** Every object is an integer. *)
Definition ints_only (m : gmap N Object) : Prop :=
  ∀ a o, m !! a = Some o → ∃ v, payload o = Int v.

(** What [perf_test] keeps true between any two of its calls. *)
Definition perf_inv (s : VM) : Prop :=
  wf s ∧ threshold_inv s ∧ object_max s ≤ 2 * STACK_MAX ∧
  ints_only (heap s).

(** * Proofs *)

(** ** Marking *)

Lemma mark_ext_refl m : mark_ext m m.
Proof. intros a. destruct (m !! a); auto. Qed.

Lemma mark_ext_trans m1 m2 m3 :
  mark_ext m1 m2 → mark_ext m2 m3 → mark_ext m1 m3.
Proof.
  intros H12 H23 a. specialize (H12 a). specialize (H23 a).
  destruct (m1 !! a), (m2 !! a), (m3 !! a); try done.
  destruct H12 as (? & ? & ?), H23 as (? & ? & ?).
  repeat split; try congruence. auto.
Qed.

Lemma mark_ext_set m a o :
  m !! a = Some o → mark_ext m (<[a := with_mark true o]> m).
Proof.
  intros Ha x. destruct (decide (x = a)) as [->|Hne].
  - rewrite Ha, lookup_insert_eq. simpl. auto.
  - rewrite lookup_insert_ne by done. destruct (m !! x); auto.
Qed.

Lemma mark_ext_lookup m m' a o :
  mark_ext m m' → m !! a = Some o →
  ∃ o', m' !! a = Some o' ∧ next o' = next o ∧ payload o' = payload o ∧
        (mark o = true → mark o' = true).
Proof.
  intros H Ha. specialize (H a). rewrite Ha in H.
  destruct (m' !! a) as [o'|]; [|done]. exists o'. tauto.
Qed.

Lemma mark_ext_lookup_inv m m' a o' :
  mark_ext m m' → m' !! a = Some o' →
  ∃ o, m !! a = Some o ∧ next o' = next o ∧ payload o' = payload o ∧
       (mark o = true → mark o' = true).
Proof.
  intros H Ha. specialize (H a). rewrite Ha in H.
  destruct (m !! a) as [o|]; [|done]. exists o. tauto.
Qed.

Lemma mark_ext_is_Some m m' a :
  mark_ext m m' → is_Some (m !! a) ↔ is_Some (m' !! a).
Proof.
  intros H. specialize (H a).
  destruct (m !! a), (m' !! a); try done; split; eauto.
Qed.

Lemma mark_ext_marked m m' a : mark_ext m m' → marked m a → marked m' a.
Proof.
  unfold marked, is_marked. intros H. specialize (H a).
  destruct (m !! a), (m' !! a); try done. tauto.
Qed.

Lemma mark_ext_edge m m' x y : mark_ext m m' → edge m x y ↔ edge m' x y.
Proof.
  intros H. split; intros (o & h & t & Ho & Hp & Hy).
  - destruct (mark_ext_lookup _ _ _ _ H Ho) as (o' & Ho' & _ & Hp' & _).
    exists o', h, t. rewrite Hp'. auto.
  - destruct (mark_ext_lookup_inv _ _ _ _ H Ho) as (o' & Ho' & _ & Hp' & _).
    exists o', h, t. rewrite <- Hp'. auto.
Qed.

Lemma mark_ext_reach m m' x y : mark_ext m m' → reach m x y ↔ reach m' x y.
Proof.
  intros H. unfold reach. split.
  - induction 1 as [|a b c Hab _ IH]; [constructor|].
    eapply rtc_l; [|exact IH]. by apply (mark_ext_edge _ _ _ _ H).
  - induction 1 as [|a b c Hab _ IH]; [constructor|].
    eapply rtc_l; [|exact IH]. by apply (mark_ext_edge _ _ _ _ H).
Qed.

Lemma mark_ext_closed m m' : mark_ext m m' → closed m → closed m'.
Proof.
  intros H Hc x y He. apply (mark_ext_is_Some _ _ _ H).
  apply (Hc x). by apply (mark_ext_edge _ _ _ _ H).
Qed.

Lemma is_marked_insert_ne m a o x :
  x ≠ a → is_marked (<[a := o]> m) x = is_marked m x.
Proof. intros. unfold is_marked. by rewrite lookup_insert_ne. Qed.

Lemma not_marked_mono m m' x :
  mark_ext m m' → is_marked m' x = false → is_marked m x = false.
Proof.
  intros H Hx. destruct (is_marked m x) eqn:E; [|done].
  apply (mark_ext_marked _ _ _ H) in E. unfold marked in E. congruence.
Qed.

(** ** The outcome monad *)

Lemma bind_Done {A B} (r : result A) (f : A → result B) (b : B) :
  r ≫= f = Done b → ∃ a, r = Done a ∧ f a = Done b.
Proof. destruct r as [a| |]; simpl; intros H; [eauto|done..]. Qed.

Lemma bind_Done_eq {A B} (r : result A) (f : A → result B) (a : A) :
  r = Done a → r ≫= f = f a.
Proof. by intros ->. Qed.

Lemma deref_Done m p o : deref m p = Done o ↔ m !! p = Some o.
Proof. unfold deref. destruct (m !! p); split; congruence. Qed.

Ltac bind_inv H x Hx :=
  apply bind_Done in H; destruct H as (x & Hx & H).

(** What one call of [gc_mark] achieves: marks are only added, the object
    visited is marked, and every object the call marks is reachable from the
    one visited and has both its fields marked when the call returns. *)
Lemma gc_mark_spec fuel : ∀ m a m',
  gc_mark fuel m a = Done m' →
  mark_ext m m' ∧ marked m' a ∧
  ∀ x, marked m' x → is_marked m x = false →
       reach m a x ∧ ∀ y, edge m x y → marked m' y.
Proof.
  induction fuel as [|fuel IH]; intros m a m' H; [done|].
  simpl in H. bind_inv H o Ha. apply deref_Done in Ha.
  destruct (mark o) eqn:Hm.
  { inversion H; subst m'. split; [apply mark_ext_refl|]. split.
    - unfold marked, is_marked. by rewrite Ha.
    - intros x Hx Hx'. unfold marked in Hx. congruence. }
  pose proof (mark_ext_set m a o Ha) as He1.
  set (m1 := <[a := with_mark true o]> m) in *.
  assert (Hnew1 : ∀ x, marked m1 x → is_marked m x = false → x = a).
  { intros x Hx Hx'. destruct (decide (x = a)); [done|].
    unfold marked, m1 in Hx. rewrite is_marked_insert_ne in Hx by done.
    congruence. }
  assert (Ha1 : marked m1 a).
  { unfold marked, is_marked, m1. by rewrite lookup_insert_eq. }
  unfold type in H. destruct (payload o) as [v|h t] eqn:Hp.
  { inversion H; subst m'. split; [done|]. split; [done|].
    intros x Hx Hx'. rewrite (Hnew1 x Hx Hx'). split; [constructor|].
    intros y (o' & h & t & Ho' & Hp' & _). congruence. }
  bind_inv H o1 Ho1. apply deref_Done in Ho1.
  unfold m1 in Ho1. rewrite lookup_insert_eq in Ho1.
  inversion Ho1; subst o1; clear Ho1. simpl in H. rewrite Hp in H.
  bind_inv H m2 Hh. bind_inv H o2 Ho2. apply deref_Done in Ho2.
  destruct (IH _ _ _ Hh) as (He2 & Hh2 & Hnew2).
  assert (He12 : mark_ext m m2) by (eapply mark_ext_trans; eauto).
  destruct (mark_ext_lookup _ _ _ _ He12 Ha) as (o2' & Ho2' & _ & Hp2 & _).
  assert (o2' = o2) by congruence. subst o2'.
  rewrite Hp2, Hp in H.
  destruct (IH _ _ _ H) as (He3 & Ht3 & Hnew3).
  assert (He13 : mark_ext m m') by (eapply mark_ext_trans; eauto).
  assert (Eah : edge m a h) by (exists o, h, t; auto).
  assert (Eat : edge m a t) by (exists o, h, t; auto).
  split; [done|]. split.
  { apply (mark_ext_marked _ _ _ He3), (mark_ext_marked _ _ _ He2), Ha1. }
  intros x Hx Hx'. destruct (is_marked m2 x) eqn:Hx2.
  - destruct (is_marked m1 x) eqn:Hx1.
    + rewrite (Hnew1 x Hx1 Hx'). split; [constructor|].
      intros y (o' & h' & t' & Ho' & Hp' & Hy).
      assert (o' = o) by congruence. subst o'.
      assert (h' = h ∧ t' = t) as [-> ->] by (split; congruence).
      destruct Hy as [->| ->]; [|done].
      apply (mark_ext_marked _ _ _ He3), Hh2.
    + destruct (Hnew2 x Hx2 Hx1) as [Hr Hs]. split.
      * eapply rtc_l; [exact Eah|]. by apply (mark_ext_reach _ _ _ _ He1).
      * intros y Hy. eapply mark_ext_marked; [exact He3|]. apply Hs.
        by apply (mark_ext_edge _ _ _ _ He1).
  - destruct (Hnew3 x Hx Hx2) as [Hr Hs]. split.
    + eapply rtc_l; [exact Eat|]. by apply (mark_ext_reach _ _ _ _ He12).
    + intros y Hy. apply Hs. by apply (mark_ext_edge _ _ _ _ He12).
Qed.

(** The recursion of [gc_mark] ends: each call that goes on marks an object
    that was not marked, so a budget above the number of unmarked objects
    is never used up. *)
Lemma gc_mark_total fuel : ∀ m a (U : gset N),
  closed m → is_Some (m !! a) →
  (∀ x, is_Some (m !! x) → is_marked m x = false → x ∈ U) →
  (size U < fuel)%nat →
  ∃ m', gc_mark fuel m a = Done m'.
Proof.
  induction fuel as [|fuel IH]; intros m a U Hc [o Ha] HU Hsz; [lia|].
  simpl. rewrite (bind_Done_eq _ _ o) by (by apply deref_Done).
  destruct (mark o) eqn:Hm; [eauto|].
  pose proof (mark_ext_set m a o Ha) as He1.
  set (m1 := <[a := with_mark true o]> m) in *.
  unfold type. destruct (payload o) as [v|h t] eqn:Hp; [eauto|].
  assert (Ha1 : m1 !! a = Some (with_mark true o))
    by (unfold m1; by rewrite lookup_insert_eq).
  rewrite (bind_Done_eq _ _ _ (proj2 (deref_Done _ _ _) Ha1)).
  simpl. rewrite Hp.
  assert (HaU : a ∈ U).
  { apply HU; [eauto|]. unfold is_marked. by rewrite Ha. }
  assert (Hsz' : (size (U ∖ {[a]}) < fuel)%nat).
  { rewrite size_difference by set_solver. rewrite size_singleton.
    assert (size U ≠ 0%nat); [|lia].
    intros E. apply size_empty_inv in E. set_solver. }
  assert (HU1 : ∀ m2, mark_ext m1 m2 → ∀ x,
            is_Some (m2 !! x) → is_marked m2 x = false → x ∈ U ∖ {[a]}).
  { intros m2 He2 x Hx Hx'.
    apply (not_marked_mono _ _ _ He2) in Hx'.
    apply (mark_ext_is_Some _ _ _ He2) in Hx.
    assert (x ≠ a).
    { intros ->. unfold is_marked in Hx'. rewrite Ha1 in Hx'. done. }
    unfold m1 in Hx, Hx'. rewrite lookup_insert_ne in Hx by done.
    rewrite is_marked_insert_ne in Hx' by done.
    apply elem_of_difference. split; [by apply HU|set_solver]. }
  assert (Hc1 : closed m1) by (by eapply mark_ext_closed).
  destruct (IH m1 h (U ∖ {[a]})) as [m2 Hh]; try done.
  { apply (Hc1 a). exists (with_mark true o), h, t. simpl. auto. }
  { apply HU1, mark_ext_refl. }
  rewrite (bind_Done_eq _ _ _ Hh).
  destruct (gc_mark_spec _ _ _ _ Hh) as (He2 & _ & _).
  destruct (mark_ext_lookup _ _ _ _ He2 Ha1) as (o2 & Ho2 & _ & Hp2 & _).
  rewrite (bind_Done_eq _ _ _ (proj2 (deref_Done _ _ _) Ho2)).
  rewrite Hp2. simpl. rewrite Hp.
  apply (IH m2 t (U ∖ {[a]})); try done.
  - by eapply mark_ext_closed.
  - apply (mark_ext_is_Some _ _ _ He2), (Hc1 a).
    exists (with_mark true o), h, t. simpl. auto.
  - by apply HU1.
Qed.

(** ** The stack array and the Root Set *)

Lemma stack_at_Done s i r :
  stack_at s i = Done r ↔
  0 ≤ i < STACK_MAX ∧ stack s !! Z.to_nat i = Some r.
Proof.
  unfold stack_at.
  destruct (Z.leb_spec 0 i), (Z.ltb_spec i STACK_MAX); simpl;
    try (split; [done|lia]).
  destruct (stack s !! Z.to_nat i); split;
    [intros [= ->]; auto with lia|intros [_ [= ->]]; done|done|by intros []].
Qed.

Lemma elem_of_roots s r :
  stack_ok s →
  r ∈ roots s ↔ ∃ i, 0 ≤ i < stack_size s ∧ stack_at s i = Done r.
Proof.
  intros [Hsz Hlen]. unfold roots. rewrite list_elem_of_lookup. split.
  - intros [n Hn]. apply lookup_take_Some in Hn as [Hn Hlt].
    exists (Z.of_nat n). split; [lia|]. apply stack_at_Done.
    rewrite Nat2Z.id. split; [lia|done].
  - intros (i & Hi & Hr). apply stack_at_Done in Hr as [_ Hr].
    exists (Z.to_nat i). apply lookup_take_Some. split; [done|lia].
Qed.

(** The loop over the roots: as for one call of [gc_mark], with the roots
    visited in place of the one object. *)
Lemma gc_mark_all_loop_spec fuel s : ∀ idx m m',
  gc_mark_all_loop fuel s idx m = Done m' →
  mark_ext m m' ∧
  (∀ i, i ∈ idx → ∃ r, stack_at s i = Done r ∧ marked m' r) ∧
  ∀ x, marked m' x → is_marked m x = false →
       (∃ i r, i ∈ idx ∧ stack_at s i = Done r ∧ reach m r x) ∧
       ∀ y, edge m x y → marked m' y.
Proof.
  induction idx as [|i idx IH]; intros m m' H; simpl in H.
  { inversion H; subst m'. split; [apply mark_ext_refl|].
    split; [by intros i Hi%elem_of_nil|].
    intros x Hx Hx'. unfold marked in Hx. congruence. }
  bind_inv H r Hr. bind_inv H m1 Hm1.
  destruct (gc_mark_spec _ _ _ _ Hm1) as (He1 & Hr1 & Hnew1).
  destruct (IH _ _ H) as (He2 & Hidx & Hnew2).
  split; [by eapply mark_ext_trans|]. split.
  - intros j [->|Hj]%elem_of_cons.
    + exists r. split; [done|]. by apply (mark_ext_marked _ _ _ He2).
    + by apply Hidx.
  - intros x Hx Hx'. destruct (is_marked m1 x) eqn:Hx1.
    + destruct (Hnew1 x Hx1 Hx') as [Hreach Hsucc]. split.
      * exists i, r. split; [left|]. done.
      * intros y Hy. apply (mark_ext_marked _ _ _ He2). by apply Hsucc.
    + destruct (Hnew2 x Hx Hx1) as [(j & r' & Hj & Hr' & Hreach) Hsucc].
      split.
      * exists j, r'. split; [by right|]. split; [done|].
        by apply (mark_ext_reach _ _ _ _ He1).
      * intros y Hy. apply Hsucc. by apply (mark_ext_edge _ _ _ _ He1).
Qed.

Lemma gc_mark_all_loop_total fuel s (U : gset N) : ∀ idx m,
  closed m →
  (∀ i, i ∈ idx → ∃ r, stack_at s i = Done r ∧ is_Some (m !! r)) →
  (∀ x, is_Some (m !! x) → x ∈ U) →
  (size U < fuel)%nat →
  ∃ m', gc_mark_all_loop fuel s idx m = Done m'.
Proof.
  induction idx as [|i idx IH]; intros m Hc Hidx HU Hsz; simpl; [eauto|].
  destruct (Hidx i) as (r & Hr & Hmr); [left|].
  rewrite (bind_Done_eq _ _ _ Hr).
  destruct (gc_mark_total fuel m r U) as [m1 Hm1]; auto.
  rewrite (bind_Done_eq _ _ _ Hm1).
  destruct (gc_mark_spec _ _ _ _ Hm1) as (He1 & _ & _).
  apply IH; auto.
  - by eapply mark_ext_closed.
  - intros j Hj. destruct (Hidx j) as (r' & Hr' & Hmr'); [by right|].
    exists r'. split; [done|]. by apply (mark_ext_is_Some _ _ _ He1).
  - intros x Hx. by apply HU, (mark_ext_is_Some _ _ _ He1).
Qed.

Lemma reach_is_Some m x y :
  closed m → is_Some (m !! x) → reach m x y → is_Some (m !! y).
Proof.
  intros Hc Hx Hr. induction Hr as [|a b c Hab _ IH]; [done|].
  apply IH. by apply (Hc a).
Qed.

Lemma rooted_is_Some s a : wf s → rooted s a → is_Some (heap s !! a).
Proof.
  intros (_ & _ & Hc & _ & Hroots) (r & Hr & Hreach).
  eapply reach_is_Some; eauto.
Qed.

(** The mark phase on a well-formed state: it returns, it changes nothing
    but marks, and it marks exactly the objects reachable from the roots. *)
Lemma gc_mark_all_spec fuel s :
  wf s → (size (heap s) < fuel)%nat →
  ∃ m', gc_mark_all fuel s = Done (with_heap m' s) ∧
        mark_ext (heap s) m' ∧
        ∀ a, marked m' a ↔ rooted s a.
Proof.
  intros Hwf Hsz. pose proof Hwf as (_ & Hmarks & Hc & Hst & Hroots).
  unfold gc_mark_all.
  destruct (gc_mark_all_loop_total fuel s (dom (heap s))
              (seqZ 0 (stack_size s)) (heap s)) as [m' Hm']; auto.
  { intros i Hi%elem_of_seqZ.
    assert (∃ r, stack_at s i = Done r) as [r Hr].
    { destruct Hst as [Hs Hlen].
      destruct (lookup_lt_is_Some_2 (stack s) (Z.to_nat i)) as [r Hr];
        [lia|].
      exists r. apply stack_at_Done. split; [lia|done]. }
    exists r. split; [done|]. apply Hroots, elem_of_roots; [done|].
    exists i. split; [lia|done]. }
  { intros x Hx. by apply elem_of_dom. }
  { by rewrite size_dom. }
  rewrite (bind_Done_eq _ _ _ Hm'). exists m'. split; [done|].
  destruct (gc_mark_all_loop_spec _ _ _ _ _ Hm') as (He & Hidx & Hnew).
  split; [done|].
  assert (Hun : ∀ x, is_marked (heap s) x = false).
  { intros x. unfold is_marked. destruct (heap s !! x) as [o|] eqn:Hx; [|done].
    by destruct (Hmarks x o Hx). }
  intros a. split.
  - intros Ha. destruct (Hnew a Ha (Hun a)) as [(i & r & Hi & Hr & Hreach) _].
    exists r. split; [|done]. apply elem_of_roots; [done|].
    exists i. split; [|done]. apply elem_of_seqZ in Hi. lia.
  - intros (r & Hr & Hreach).
    apply elem_of_roots in Hr as (i & Hi & Hr); [|done].
    assert (Hmr : marked m' r).
    { destruct (Hidx i) as (r' & Hr' & Hm); [apply elem_of_seqZ; lia|].
      congruence. }
    clear Hr. induction Hreach as [|x y z Hxy _ IH]; [done|].
    apply IH. by apply (Hnew x Hmr (Hun x)).
Qed.

(** ** Sweeping *)

Lemma chain_ext m m' : ∀ l p,
  (∀ a, a ∈ l → next <$> m' !! a = next <$> m !! a) →
  chain m p l → chain m' p l.
Proof.
  induction l as [|a l IH]; intros p Hl; simpl; [done|].
  intros (-> & Hnn & o & Ho & Hch). split; [done|]. split; [done|].
  pose proof (Hl a ltac:(left)) as Ha. rewrite Ho in Ha. simpl in Ha.
  destruct (m' !! a) as [o'|] eqn:Ho'; [|done]. simpl in Ha.
  exists o'. split; [done|]. inversion Ha as [Hn]. rewrite Hn.
  apply IH; [|done]. intros x Hx. apply Hl. by right.
Qed.

Lemma chain_is_Some m : ∀ l p a, chain m p l → a ∈ l → is_Some (m !! a).
Proof.
  induction l as [|b l IH]; intros p a; simpl; [by intros _ ?%elem_of_nil|].
  intros (-> & _ & o & Ho & Hch) [->|Ha]%elem_of_cons; eauto.
Qed.

Lemma filter_marked_ext m m' (l : list addr) :
  (∀ a, a ∈ l → is_marked m' a = is_marked m a) →
  filter (λ a, marked m' a) l = filter (λ a, marked m a) l.
Proof.
  induction l as [|a l IH]; intros Hl; [done|].
  pose proof (Hl a ltac:(left)) as Ha.
  specialize (IH (λ x Hx, Hl x ltac:(by right))).
  destruct (decide (marked m a)) as [Hm|Hm].
  - rewrite !filter_cons_True, IH; unfold marked in *; congruence.
  - rewrite !filter_cons_False, IH; unfold marked in *; congruence.
Qed.

Lemma load_slot_next s b ob :
  heap s !! b = Some ob → load_slot s (SlotNext b) = Done (next ob).
Proof.
  intros Hb. simpl. by rewrite (bind_Done_eq _ _ ob) by (by apply deref_Done).
Qed.

Lemma load_slot_next_inv s b p :
  load_slot s (SlotNext b) = Done p →
  ∃ ob, heap s !! b = Some ob ∧ next ob = p.
Proof.
  simpl. intros H. bind_inv H ob Hob. apply deref_Done in Hob.
  exists ob. split; congruence.
Qed.

Lemma with_next_id o : with_next (next o) o = o.
Proof. by destruct o. Qed.

Lemma with_heap_id s : with_heap (heap s) s = s.
Proof. by destruct s. Qed.

Lemma wrap_small x : 0 ≤ x < 2 ^ 64 → wrap x = x.
Proof. intros. unfold wrap, SIZE_WIDTH. by apply Z.mod_small. Qed.

(** The sweep loop started at the cursor [sl], with the chain [l] still
    ahead of it: unmarked objects of [l] are unlinked and freed, marked
    ones are kept with the mark cleared, and nothing else changes except
    the link the cursor points at. *)
Lemma gc_sweep_loop_spec : ∀ l fuel s sl p,
  load_slot s sl = Done p →
  chain (heap s) p l → NoDup l →
  (∀ a, sl = SlotNext a → a ∉ l) →
  (length l < fuel)%nat →
  Z.of_nat (length l) ≤ object_num s < 2 ^ 64 →
  ∃ s' p', gc_sweep_loop fuel s sl = Done s' ∧
    load_slot s' sl = Done p' ∧
    chain (heap s') p' (filter (λ a, marked (heap s) a) l) ∧
    object_num s' = object_num s -
      (Z.of_nat (length l) -
       Z.of_nat (length (filter (λ a, marked (heap s) a) l))) ∧
    object_max s' = object_max s ∧
    stack_size s' = stack_size s ∧
    stack s' = stack s ∧
    (sl ≠ SlotFirst → first_object s' = first_object s) ∧
    (∀ a, a ∈ l → is_marked (heap s) a = false → heap s' !! a = None) ∧
    (∀ a o, a ∈ l → heap s !! a = Some o → mark o = true →
       ∃ o', heap s' !! a = Some o' ∧ payload o' = payload o ∧
             mark o' = false) ∧
    (∀ a, a ∉ l → sl ≠ SlotNext a → heap s' !! a = heap s !! a) ∧
    (∀ a o, sl = SlotNext a → heap s !! a = Some o →
       heap s' !! a = Some (with_next p' o)).
Proof.
  induction l as [|a l IH]; intros fuel s sl p Hload Hch Hnd Hsl Hfuel Hnum;
    (destruct fuel as [|fuel]; [simpl in Hfuel; lia|]); simpl in Hch.
  { subst p. exists s, NULL. simpl. rewrite (bind_Done_eq _ _ _ Hload).
    simpl. repeat split; try done.
    - simpl. lia.
    - by intros a Ha%elem_of_nil.
    - by intros a o Ha%elem_of_nil.
    - intros a o -> Ho. simpl in Hload. bind_inv Hload o' Ho'.
      apply deref_Done in Ho'. inversion Hload as [Hn].
      assert (o' = o) by congruence. subst o'.
      by rewrite with_next_id. }
  destruct Hch as (-> & Hnn & o & Ho & Hch).
  apply NoDup_cons in Hnd as [Hal Hnd].
  simpl. rewrite (bind_Done_eq _ _ _ Hload).
  destruct (N.eqb_spec a NULL) as [|_]; [done|].
  rewrite (bind_Done_eq _ _ o) by (by apply deref_Done).
  simpl in Hfuel, Hnum.
  destruct (mark o) eqn:Hm; simpl.
  - (* marked: keep it, clear the mark, move the cursor to its link *)
    set (s1 := with_heap (<[a := with_mark false o]> (heap s)) s).
    assert (Hs1a : heap s1 !! a = Some (with_mark false o))
      by (simpl; by rewrite lookup_insert_eq).
    assert (Hs1ne : ∀ x, x ≠ a → heap s1 !! x = heap s !! x)
      by (intros x Hx; simpl; by rewrite lookup_insert_ne).
    destruct (IH fuel s1 (SlotNext a) (next o))
      as (s' & p' & Hrun & Hload' & Hch' & Hnum' & Hmax' & Hss' & Hst' &
          Hfo' & Hfree' & Hkeep' & Hother' & Hown'); try done.
    { simpl. rewrite (bind_Done_eq _ _ (with_mark false o))
        by (by apply deref_Done). done. }
    { eapply chain_ext; [|exact Hch]. intros x Hx.
      rewrite Hs1ne; [done|]. intros ->. done. }
    { intros ? [= <-]. done. }
    { lia. }
    { simpl. lia. }
    assert (Hfilt : filter (λ x, marked (heap s) x) (a :: l)
                    = a :: filter (λ x, marked (heap s1) x) l).
    { rewrite filter_cons_True
        by (unfold marked, is_marked; by rewrite Ho).
      f_equal. symmetry. apply filter_marked_ext. intros x Hx.
      unfold is_marked. rewrite Hs1ne; [done|]. by intros ->. }
    rewrite Hfilt.
    pose proof (Hown' a _ eq_refl Hs1a) as Ha'.
    assert (Hslot : ∀ b, sl = SlotNext b → b ≠ a ∧ b ∉ l).
    { intros b Hb. specialize (Hsl b Hb).
      rewrite not_elem_of_cons in Hsl. done. }
    assert (Hloadp : load_slot s' sl = Done a).
    { destruct sl as [|b].
      - simpl. rewrite Hfo' by done. by simpl in Hload.
      - destruct (Hslot b eq_refl) as [Hba Hbl].
        destruct (load_slot_next_inv _ _ _ Hload) as (ob & Hob & <-).
        apply load_slot_next. rewrite Hother', Hs1ne by congruence. done. }
    exists s', a. split; [done|]. split; [done|].
    split.
    { simpl. split; [done|]. split; [done|].
      eexists. split; [exact Ha'|]. done. }
    split. { rewrite Hnum'. simpl. lia. }
    split; [done|]. split; [done|]. split; [done|].
    split. { intros Hne. rewrite Hfo' by done. done. }
    split.
    { intros x [->|Hx]%elem_of_cons Hxm.
      - unfold is_marked in Hxm. rewrite Ho in Hxm. congruence.
      - apply Hfree'; [done|]. unfold is_marked.
        rewrite Hs1ne; [done|]. by intros ->. }
    split.
    { intros x ox [->|Hx]%elem_of_cons Hox Hmx.
      - assert (ox = o) by congruence. subst ox.
        eexists. split; [exact Ha'|]. done.
      - apply Hkeep'; [done| |done].
        rewrite Hs1ne; [done|]. by intros ->. }
    split.
    { intros x Hx Hsx. apply not_elem_of_cons in Hx as [Hxa Hxl].
      rewrite Hother', Hs1ne; [done..|]. congruence. }
    { intros b ob -> Hob. destruct (Hslot b eq_refl) as [Hba Hbl].
      rewrite Hother', Hs1ne; [|done..|congruence].
      destruct (load_slot_next_inv _ _ _ Hload) as (ob' & Hob' & <-).
      assert (ob' = ob) by congruence. subst ob'.
      by rewrite with_next_id. }
  - (* unmarked: unlink it through the cursor and free it *)
    assert (∃ s1, store_slot s sl (next o) = Done s1 ∧
              load_slot s1 sl = Done (next o) ∧
              (sl ≠ SlotFirst → first_object s1 = first_object s) ∧
              object_num s1 = object_num s ∧ object_max s1 = object_max s ∧
              stack_size s1 = stack_size s ∧ stack s1 = stack s ∧
              (∀ x, sl ≠ SlotNext x → heap s1 !! x = heap s !! x) ∧
              (∀ b ob, sl = SlotNext b → heap s !! b = Some ob →
                 heap s1 !! b = Some (with_next (next o) ob)))
      as (s1 & Hstore & Hload1 & Hfo1 & Hnum1 & Hmax1 & Hss1 & Hst1 &
          Hother1 & Hown1).
    { destruct sl as [|b]; simpl in *.
      - eexists. split; [done|]. simpl. repeat split; try done.
      - bind_inv Hload ob Hob. pose proof Hob as Hob'.
        apply deref_Done in Hob'. rewrite (bind_Done_eq _ _ _ Hob).
        eexists. split; [done|]. simpl.
        rewrite (bind_Done_eq _ _ (with_next (next o) ob))
          by (apply deref_Done; by rewrite lookup_insert_eq).
        repeat split; try done.
        + intros x Hx. rewrite lookup_insert_ne by congruence. done.
        + intros b' ob' [= <-] Hb'. rewrite lookup_insert_eq. congruence. }
    rewrite (bind_Done_eq _ _ _ Hstore). simpl.
    set (s3 := with_object_num _ _).
    assert (Hslot : ∀ b, sl = SlotNext b → b ≠ a ∧ b ∉ l).
    { intros b Hb. specialize (Hsl b Hb).
      rewrite not_elem_of_cons in Hsl. done. }
    assert (Hs3a : heap s3 !! a = None) by (simpl; by rewrite lookup_delete_eq).
    assert (Hs3ne : ∀ x, x ≠ a → heap s3 !! x = heap s1 !! x)
      by (intros x Hx; simpl; by rewrite lookup_delete_ne).
    assert (Hs3l : ∀ x, x ∈ l → heap s3 !! x = heap s !! x).
    { intros x Hx. rewrite Hs3ne by (by intros ->).
      apply Hother1. intros ->. by destruct (Hslot x eq_refl). }
    assert (Hnum3 : object_num s3 = object_num s - 1).
    { subst s3. simpl. rewrite Hnum1. apply wrap_small. lia. }
    destruct (IH fuel s3 sl (next o))
      as (s' & p' & Hrun & Hload' & Hch' & Hnum' & Hmax' & Hss' & Hst' &
          Hfo' & Hfree' & Hkeep' & Hother' & Hown'); try done.
    { destruct sl as [|b]; [done|].
      destruct (Hslot b eq_refl) as [Hba Hbl].
      destruct (load_slot_next_inv _ _ _ Hload1) as (ob & Hob & <-).
      apply load_slot_next. by rewrite Hs3ne. }
    { eapply chain_ext; [|exact Hch]. intros x Hx. by rewrite Hs3l. }
    { intros b Hb. by destruct (Hslot b Hb). }
    { lia. }
    { lia. }
    assert (Hfilt : filter (λ x, marked (heap s) x) (a :: l)
                    = filter (λ x, marked (heap s3) x) l).
    { rewrite filter_cons_False
        by (unfold marked, is_marked; rewrite Ho; congruence).
      symmetry. apply filter_marked_ext. intros x Hx.
      unfold is_marked. by rewrite Hs3l. }
    rewrite Hfilt. exists s', p'.
    split; [done|]. split; [done|]. split; [done|].
    split. { rewrite Hnum', Hnum3. simpl. lia. }
    split. { by rewrite Hmax'. }
    split. { by rewrite Hss'. }
    split. { by rewrite Hst'. }
    split.
    { intros Hne. rewrite Hfo' by done. simpl. by rewrite Hfo1. }
    split.
    { intros x [->|Hx]%elem_of_cons Hxm.
      - rewrite Hother'; [done|done|]. intros ->.
        by destruct (Hslot a eq_refl).
      - apply Hfree'; [done|]. unfold is_marked. by rewrite Hs3l. }
    split.
    { intros x ox [->|Hx]%elem_of_cons Hox Hmx.
      - congruence.
      - apply Hkeep'; [done| |done]. by rewrite Hs3l. }
    split.
    { intros x Hx Hsx. apply not_elem_of_cons in Hx as [Hxa Hxl].
      rewrite Hother', Hs3ne, Hother1; done. }
    { intros b ob -> Hob. destruct (Hslot b eq_refl) as [Hba Hbl].
      erewrite Hown'; [|done|].
      2:{ rewrite Hs3ne by done. by apply Hown1. }
      by destruct ob. }
Qed.

(** When every object of the chain is marked, the sweep loop only clears
    the marks: no link is rewritten and nothing is freed. *)
Lemma gc_sweep_loop_all_marked : ∀ l fuel s sl p,
  load_slot s sl = Done p →
  chain (heap s) p l → NoDup l →
  (∀ a, a ∈ l → marked (heap s) a) →
  (length l < fuel)%nat →
  ∃ m', gc_sweep_loop fuel s sl = Done (with_heap m' s) ∧
    ∀ x, m' !! x = if decide (x ∈ l) then with_mark false <$> heap s !! x
                   else heap s !! x.
Proof.
  induction l as [|a l IH]; intros fuel s sl p Hload Hch Hnd Hall Hfuel;
    (destruct fuel as [|fuel]; [simpl in Hfuel; lia|]); simpl in Hch.
  { subst p. exists (heap s). simpl. rewrite (bind_Done_eq _ _ _ Hload).
    simpl. rewrite with_heap_id. by split. }
  destruct Hch as (-> & Hnn & o & Ho & Hch).
  apply NoDup_cons in Hnd as [Hal Hnd].
  simpl. rewrite (bind_Done_eq _ _ _ Hload).
  destruct (N.eqb_spec a NULL) as [|_]; [done|].
  rewrite (bind_Done_eq _ _ o) by (by apply deref_Done).
  assert (Hm : mark o = true).
  { specialize (Hall a ltac:(left)). unfold marked, is_marked in Hall.
    by rewrite Ho in Hall. }
  rewrite Hm. simpl.
  set (s1 := with_heap (<[a := with_mark false o]> (heap s)) s).
  assert (Hs1ne : ∀ x, x ≠ a → heap s1 !! x = heap s !! x)
    by (intros x Hx; simpl; by rewrite lookup_insert_ne).
  destruct (IH fuel s1 (SlotNext a) (next o)) as (m' & Hrun & Hm'); try done.
  { apply (load_slot_next s1 a (with_mark false o)). simpl.
    by rewrite lookup_insert_eq. }
  { eapply chain_ext; [|exact Hch]. intros x Hx.
    rewrite Hs1ne; [done|]. by intros ->. }
  { intros x Hx. unfold marked, is_marked. rewrite Hs1ne by (by intros ->).
    apply Hall. by right. }
  { simpl in Hfuel. lia. }
  exists m'. split; [done|]. intros x. rewrite Hm'.
  destruct (decide (x = a)) as [->|Hxa].
  - rewrite decide_False by done. rewrite decide_True by left.
    simpl. by rewrite lookup_insert_eq, Ho.
  - rewrite Hs1ne by done.
    destruct (decide (x ∈ l)) as [Hx|Hx].
    + rewrite decide_True by (by right). done.
    + rewrite decide_False; [done|]. by apply not_elem_of_cons.
Qed.

(** ** The address space bounds the number of objects *)

Lemma aligned_set_size (n : nat) : ∀ X : gset N,
  (∀ a, a ∈ X → (a < 8 * N.of_nat n)%N ∧ (a mod 8 = 0)%N) →
  (size X ≤ n)%nat.
Proof.
  induction n as [|n IH]; intros X HX.
  - assert (X = ∅) as ->; [|by rewrite size_empty].
    apply elem_of_equiv_empty_L. intros a Ha. specialize (HX a Ha). lia.
  - set (top := (8 * N.of_nat n)%N).
    assert (Hle : (size X ≤ size ({[top]} ∪ X))%nat)
      by apply subseteq_size, union_subseteq_r.
    rewrite size_union_alt, size_singleton in Hle.
    assert ((size (X ∖ {[top]}) ≤ n)%nat); [|lia].
    apply IH. intros a [Ha Hne]%elem_of_difference.
    destruct (HX a Ha) as [Hlt Hmod]. split; [|done].
    assert (a ≠ top) by set_solver. unfold top in *.
    pose proof (N.div_mod a 8 ltac:(done)) as Hdm. lia.
Qed.

Lemma length_chain_size (m : gmap N Object) (l : list addr) :
  NoDup l → (∀ a, a ∈ l ↔ is_Some (m !! a)) → length l = size m.
Proof.
  intros Hnd Hl. rewrite <- size_dom.
  rewrite <- (size_list_to_set (C := gset N) l Hnd). f_equal.
  apply set_eq. intros a. rewrite elem_of_list_to_set, elem_of_dom. apply Hl.
Qed.

Lemma placed_size (m : gmap N Object) :
  (∀ a, is_Some (m !! a) → placed a) → Z.of_nat (size m) ≤ 2 ^ 61.
Proof.
  intros Hp. rewrite <- size_dom.
  assert (size (dom m) ≤ Z.to_nat (2 ^ 61))%nat; [|lia].
  apply aligned_set_size. intros a Ha%elem_of_dom.
  destruct (Hp a Ha) as (_ & Hlt & Hmod).
  unfold ADDR_LIMIT, OBJECT_ALIGN in *. split; [|done].
  replace (8 * N.of_nat (Z.to_nat (2 ^ 61)))%N with (2 ^ 64)%N; [done|].
  rewrite Z_nat_N. done.
Qed.

(** ** A whole collection cycle *)

Lemma mark_ext_next m m' a :
  mark_ext m m' → next <$> m' !! a = next <$> m !! a.
Proof.
  intros H. specialize (H a).
  destruct (m !! a), (m' !! a); simpl; try done.
  destruct H as (-> & _). done.
Qed.

Lemma wf_count s l :
  wf s → chained s l →
  length l = size (heap s) ∧ 0 ≤ object_num s ≤ 2 ^ 61.
Proof.
  intros (_ & Hmarks & _) (_ & Hnd & Hall & Hnum).
  assert (Hlen : length l = size (heap s)) by by apply length_chain_size.
  split; [done|]. rewrite Hnum, Hlen. split; [lia|].
  apply placed_size. intros a [o Ho]. by destruct (Hmarks a o Ho).
Qed.

(** [gc] on a well-formed state returns; the objects left on the chain are
    exactly those reachable from the roots, each with its payload as before
    and its mark clear; the stack is untouched; the threshold is set from
    the new count; and the state is again well-formed. *)
Lemma gc_spec fuel s :
  wf s → (size (heap s) < fuel)%nat →
  ∃ s' l', gc fuel s = Done s' ∧ chained s' l' ∧
    (∀ a, a ∈ l' ↔ rooted s a) ∧
    stack s' = stack s ∧ stack_size s' = stack_size s ∧
    (∀ a o', heap s' !! a = Some o' →
       ∃ o, heap s !! a = Some o ∧ payload o' = payload o ∧
            mark o' = false) ∧
    object_num s' ≤ object_num s ∧
    object_max s' =
      (if object_num s =? 0 then object_max s
       else if object_num s' =? 0 then GC_INITIAL_THRESHOLD
       else object_num s' * 2) ∧
    wf s'.
Proof.
  intros Hwf Hfuel.
  pose proof Hwf as ((l & Hchd) & Hmarks & Hc & Hst & Hroots).
  destruct (wf_count s l Hwf Hchd) as [Hlen Hbound].
  pose proof Hchd as (Hch & Hnd & Hall & Hnum).
  unfold gc. destruct (Z.eqb_spec (object_num s) 0) as [H0|H0].
  { destruct l as [|a l]; [|simpl in Hnum; lia].
    exists s, []. split; [done|]. split; [done|]. split.
    { intros a. split; [by intros ?%elem_of_nil|].
      intros Ha. apply Hall. by apply rooted_is_Some. }
    split; [done|]. split; [done|]. split.
    { intros a o' Ho'. exists o'. split; [done|]. split; [done|].
      by destruct (Hmarks a o' Ho'). }
    split; [lia|]. by split. }
  destruct (gc_mark_all_spec fuel s Hwf Hfuel) as (m1 & Hmark & He & Hrooted).
  rewrite (bind_Done_eq _ _ _ Hmark). unfold gc_sweep.
  destruct (gc_sweep_loop_spec l fuel (with_heap m1 s) SlotFirst
              (first_object s))
    as (s2 & p' & Hrun & Hload' & Hch' & Hnum' & Hmax' & Hss' & Hst' & _ &
        Hfree & Hkeep & Hother & _); try done.
  { simpl. eapply chain_ext; [|exact Hch]. intros a _.
    by apply mark_ext_next. }
  { lia. }
  { simpl. lia. }
  rewrite (bind_Done_eq _ _ _ Hrun). simpl in *.
  set (kept := filter (λ a, marked m1 a) l) in *.
  assert (Hkept : ∀ a, a ∈ kept ↔ rooted s a).
  { intros a. unfold kept. rewrite list_elem_of_filter, Hrooted.
    split; [tauto|]. intros Ha. split; [done|].
    apply Hall. by apply rooted_is_Some. }
  assert (Hkept_len : (length kept ≤ length l)%nat)
    by apply length_filter.
  assert (Hsurv : ∀ a, is_Some (heap s2 !! a) ↔ a ∈ kept).
  { intros a. split.
    - intros Ha. destruct (decide (a ∈ l)) as [Hal|Hal].
      + apply list_elem_of_filter. split; [|done].
        destruct (is_marked m1 a) eqn:Hma; [done|].
        rewrite (Hfree a Hal Hma) in Ha. by destruct Ha.
      + rewrite (Hother a Hal) in Ha by done.
        apply (mark_ext_is_Some _ _ _ He) in Ha. by apply Hall in Ha.
    - intros [Hma Hal]%list_elem_of_filter.
      unfold marked, is_marked in Hma.
      destruct (m1 !! a) as [o1|] eqn:Ho1; [|done].
      destruct (Hkeep a o1 Hal Ho1 Hma) as (o' & Ho' & _). eauto. }
  assert (Hpay : ∀ a o', heap s2 !! a = Some o' →
            ∃ o, heap s !! a = Some o ∧ payload o' = payload o ∧
                 mark o' = false).
  { intros a o' Ho'.
    assert (Ha : a ∈ kept) by (apply Hsurv; eauto).
    apply list_elem_of_filter in Ha as [Hma Hal].
    unfold marked, is_marked in Hma.
    destruct (m1 !! a) as [o1|] eqn:Ho1; [|done].
    destruct (Hkeep a o1 Hal Ho1 Hma) as (o'' & Ho'' & Hp'' & Hm'').
    assert (o'' = o') by congruence. subst o''.
    destruct (mark_ext_lookup_inv _ _ _ _ He Ho1) as (o & Ho & _ & Hp & _).
    exists o. split; [done|]. split; [congruence|done]. }
  assert (Hnum2 : object_num s2 = Z.of_nat (length kept)) by lia.
  assert (Hchd2 : chain (heap s2) (first_object s2) kept).
  { inversion Hload' as [Hp']. by rewrite Hp'. }
  eexists. exists kept. split; [done|]. simpl.
  split.
  { split; [done|]. split; [by apply NoDup_filter|]. split; [|done].
    intros a. by rewrite Hsurv. }
  split; [done|]. split; [done|]. split; [done|]. split; [done|].
  split; [lia|]. split.
  { destruct (Z.eqb_spec (object_num s2) 0); simpl; [done|].
    apply wrap_small. lia. }
  split.
  { exists kept. simpl. split; [done|]. split; [by apply NoDup_filter|].
    split; [|done]. intros a. by rewrite Hsurv. }
  simpl. split.
  { intros a o' Ho'. destruct (Hpay a o' Ho') as (o & Ho & _ & Hm).
    split; [done|]. by destruct (Hmarks a o Ho). }
  split.
  { intros x y (ox & h & t & Hox & Hpx & Hy).
    destruct (Hpay x ox Hox) as (o & Ho & Hp & _).
    apply Hsurv, Hkept.
    assert (Hx : rooted s x) by (apply Hkept, Hsurv; eauto).
    destruct Hx as (r & Hr & Hreach). exists r. split; [done|].
    eapply rtc_r; [exact Hreach|]. exists o, h, t. rewrite <- Hp. auto. }
  split.
  { unfold stack_ok in *. simpl. by rewrite Hss', Hst'. }
  intros r Hr. apply Hsurv, Hkept. exists r. split; [|constructor].
  unfold roots in *. simpl in Hr. by rewrite Hss', Hst' in Hr.
Qed.

(** ** Push and pop *)

Lemma vm_push_spec s v :
  stack_ok s → stack_size s < STACK_MAX →
  vm_push s v =
    Done (with_stack_size (stack_size s + 1)
           (with_stack (<[Z.to_nat (stack_size s) := v]> (stack s)) s)) ∧
  roots (with_stack_size (stack_size s + 1)
           (with_stack (<[Z.to_nat (stack_size s) := v]> (stack s)) s))
    = roots s ++ [v].
Proof.
  intros [Hsz Hlen] Hlt. unfold vm_push.
  destruct (Z.ltb_spec (stack_size s) STACK_MAX); [|lia].
  rewrite wrap_small by (unfold STACK_MAX in *; lia). split; [done|].
  unfold roots. simpl.
  replace (Z.to_nat (stack_size s + 1)) with (S (Z.to_nat (stack_size s)))
    by lia.
  rewrite (take_S_r _ _ v) by (apply list_lookup_insert_eq; lia).
  by rewrite take_insert_ge.
Qed.

Lemma vm_pop_spec s :
  stack_ok s → 0 < stack_size s →
  ∃ r, vm_pop s = Done (with_stack_size (stack_size s - 1) s, r) ∧
       stack_at s (stack_size s - 1) = Done r ∧
       roots s = roots (with_stack_size (stack_size s - 1) s) ++ [r].
Proof.
  intros [Hsz Hlen] Hlt. unfold vm_pop.
  destruct (Z.ltb_spec 0 (stack_size s)); [|lia].
  rewrite wrap_small by (unfold STACK_MAX in *; lia).
  destruct (lookup_lt_is_Some_2 (stack s) (Z.to_nat (stack_size s - 1)))
    as [r Hr]; [lia|].
  assert (Hat : stack_at s (stack_size s - 1) = Done r)
    by (apply stack_at_Done; split; [lia|done]).
  exists r. simpl.
  assert (Hat' : stack_at (with_stack_size (stack_size s - 1) s)
                   (stack_size s - 1) = Done r) by done.
  rewrite (bind_Done_eq _ _ _ Hat'). split; [done|]. split; [done|].
  unfold roots. simpl.
  replace (Z.to_nat (stack_size s)) with (S (Z.to_nat (stack_size s - 1)))
    by lia.
  by apply take_S_r.
Qed.

(** ** Well-formedness is kept by the mutator operations *)

(** [wf] does not look at the threshold, and looks at the stack only
    through [stack_ok] and the roots. *)
Lemma wf_same_heap s s' :
  wf s → heap s' = heap s → first_object s' = first_object s →
  object_num s' = object_num s → stack_ok s' →
  (∀ r, r ∈ roots s' → is_Some (heap s !! r)) →
  wf s'.
Proof.
  intros ((l & Hch & Hnd & Hall & Hnum) & Hmarks & Hc & _ & _)
    Hh Hf Hn Hst Hroots.
  split. { exists l. unfold chained. by rewrite Hh, Hf, Hn. }
  rewrite Hh. done.
Qed.

Lemma wf_alloc s1 s' p pl :
  wf s1 → heap s1 !! p = None → placed p →
  (∀ h t, pl = Pair h t →
     is_Some (heap s1 !! h) ∧ is_Some (heap s1 !! t)) →
  heap s' = <[p := mkObject false (first_object s1) pl]> (heap s1) →
  first_object s' = p → object_num s' = object_num s1 + 1 →
  stack_ok s' →
  (∀ r, r ∈ roots s' → r = p ∨ is_Some (heap s1 !! r)) →
  wf s'.
Proof.
  intros ((l & Hch & Hnd & Hall & Hnum) & Hmarks & Hc & _ & _)
    Hfresh Hpl Hpay Hh Hf Hn Hst Hroots.
  assert (Hpl' : p ∉ l).
  { intros Hp%Hall. rewrite Hfresh in Hp. by destruct Hp. }
  assert (Hsome : ∀ a, is_Some (heap s' !! a) ↔ a = p ∨ is_Some (heap s1 !! a)).
  { intros a. rewrite Hh, lookup_insert_is_Some. split.
    - intros [->|[_ ?]]; auto.
    - intros [->|Ha]; [by left|]. right. split; [|done].
      intros ->. rewrite Hfresh in Ha. by destruct Ha. }
  split.
  { exists (p :: l). split.
    - simpl. rewrite Hf, Hh. split; [done|]. split; [by destruct Hpl|].
      eexists. split; [apply lookup_insert_eq|]. simpl.
      eapply chain_ext; [|exact Hch]. intros a Ha.
      rewrite lookup_insert_ne; [done|]. by intros ->.
    - split; [by apply NoDup_cons|]. split.
      + intros a. rewrite Hsome, elem_of_cons, Hall. done.
      + rewrite Hn, Hnum. simpl. lia. }
  split.
  { intros a o. rewrite Hh. intros Ho.
    apply lookup_insert_Some in Ho as [[<- <-]|[_ Ho]]; [done|].
    by apply (Hmarks a o). }
  split.
  { intros x y (o & h & t & Ho & Hp & Hy). apply Hsome. right.
    rewrite Hh in Ho.
    apply lookup_insert_Some in Ho as [[<- <-]|[_ Ho]].
    - simpl in Hp. destruct (Hpay h t Hp). by destruct Hy as [->| ->].
    - apply (Hc x). exists o, h, t. auto. }
  split; [done|].
  intros r Hr. apply Hsome. by apply Hroots.
Qed.

Lemma wf_store_payload s a o pl :
  wf s → heap s !! a = Some o →
  (∀ h t, pl = Pair h t → is_Some (heap s !! h) ∧ is_Some (heap s !! t)) →
  wf (with_heap (<[a := with_payload pl o]> (heap s)) s).
Proof.
  intros ((l & Hch & Hnd & Hall & Hnum) & Hmarks & Hc & Hst & Hroots)
    Ha Hpay.
  assert (Hsome : ∀ x, is_Some (<[a := with_payload pl o]> (heap s) !! x)
                       ↔ is_Some (heap s !! x)).
  { intros x. rewrite lookup_insert_is_Some. split.
    - intros [<-|[_ ?]]; eauto.
    - intros Hx. destruct (decide (a = x)); auto. }
  split.
  { exists l. split; simpl.
    - eapply chain_ext; [|exact Hch]. intros x _.
      destruct (decide (x = a)) as [->|Hne].
      + by rewrite lookup_insert_eq, Ha.
      + by rewrite lookup_insert_ne.
    - split; [done|]. split; [|done]. intros x. by rewrite Hsome. }
  simpl. split.
  { intros x ox Hx. apply lookup_insert_Some in Hx as [[<- <-]|[_ Hx]].
    - simpl. by apply (Hmarks a o).
    - by apply (Hmarks x ox). }
  split.
  { intros x y (ox & h & t & Hx & Hp & Hy). apply Hsome.
    apply lookup_insert_Some in Hx as [[<- <-]|[_ Hx]].
    - simpl in Hp. destruct (Hpay h t Hp). by destruct Hy as [->| ->].
    - apply (Hc x). exists ox, h, t. auto. }
  split; [done|]. intros r Hr. apply Hsome. by apply Hroots.
Qed.

Lemma store_head_inv s a b s' :
  store_head s a b = Done s' →
  ∃ o h t, heap s !! a = Some o ∧ payload o = Pair h t ∧
    s' = with_heap (<[a := with_payload (Pair b t) o]> (heap s)) s.
Proof.
  unfold store_head. intros H. bind_inv H o Ho. apply deref_Done in Ho.
  destruct (payload o) as [|h t] eqn:Hp; [done|].
  exists o, h, t. by inversion H.
Qed.

Lemma store_tail_inv s a b s' :
  store_tail s a b = Done s' →
  ∃ o h t, heap s !! a = Some o ∧ payload o = Pair h t ∧
    s' = with_heap (<[a := with_payload (Pair h b) o]> (heap s)) s.
Proof.
  unfold store_tail. intros H. bind_inv H o Ho. apply deref_Done in Ho.
  destruct (payload o) as [|h t] eqn:Hp; [done|].
  exists o, h, t. by inversion H.
Qed.

Lemma wf_store_head s a b s' :
  wf s → is_Some (heap s !! b) → store_head s a b = Done s' → wf s'.
Proof.
  intros Hwf Hb (o & h & t & Ho & Hp & ->)%store_head_inv.
  apply wf_store_payload; [done..|]. intros h' t' [= <- <-].
  split; [done|]. destruct Hwf as (_ & _ & Hc & _).
  apply (Hc a). exists o, h, t. auto.
Qed.

Lemma wf_store_tail s a b s' :
  wf s → is_Some (heap s !! b) → store_tail s a b = Done s' → wf s'.
Proof.
  intros Hwf Hb (o & h & t & Ho & Hp & ->)%store_tail_inv.
  apply wf_store_payload; [done..|]. intros h' t' [= <- <-].
  split; [|done]. destruct Hwf as (_ & _ & Hc & _).
  apply (Hc a). exists o, h, t. auto.
Qed.

Lemma gc_collected fuel s :
  wf s → (size (heap s) < fuel)%nat →
  ∃ s', gc fuel s = Done s' ∧ collected s s'.
Proof.
  intros Hwf Hfuel.
  destruct (gc_spec fuel s Hwf Hfuel)
    as (s' & l' & Hgc & Hch & Hl' & Hrest).
  exists s'. split; [done|]. split; [by exists l'|done].
Qed.

(** ** More fuel changes no result *)

Lemma gc_mark_mono fuel : ∀ m a m' k,
  gc_mark fuel m a = Done m' → gc_mark (fuel + k) m a = Done m'.
Proof.
  induction fuel as [|fuel IH]; intros m a m' k H; [done|].
  simpl in *. bind_inv H o Ho. rewrite (bind_Done_eq _ _ _ Ho).
  destruct (mark o); [done|]. destruct (type o); [done|].
  bind_inv H o1 Ho1. rewrite (bind_Done_eq _ _ _ Ho1).
  destruct (payload o1); [done|].
  bind_inv H m2 Hm2. rewrite (bind_Done_eq _ _ _ (IH _ _ _ k Hm2)).
  bind_inv H o2 Ho2. rewrite (bind_Done_eq _ _ _ Ho2).
  destruct (payload o2); [done|]. by apply IH.
Qed.

Lemma gc_mark_all_loop_mono fuel s k : ∀ idx m m',
  gc_mark_all_loop fuel s idx m = Done m' →
  gc_mark_all_loop (fuel + k) s idx m = Done m'.
Proof.
  induction idx as [|i idx IH]; intros m m' H; [done|].
  simpl in *. bind_inv H r Hr. rewrite (bind_Done_eq _ _ _ Hr).
  bind_inv H m1 Hm1.
  rewrite (bind_Done_eq _ _ _ (gc_mark_mono _ _ _ _ k Hm1)). by apply IH.
Qed.

Lemma gc_sweep_loop_mono fuel k : ∀ s sl s',
  gc_sweep_loop fuel s sl = Done s' →
  gc_sweep_loop (fuel + k) s sl = Done s'.
Proof.
  induction fuel as [|fuel IH]; intros s sl s' H; [done|].
  simpl in *. bind_inv H p Hp. rewrite (bind_Done_eq _ _ _ Hp).
  destruct (p =? NULL)%N; [done|].
  bind_inv H o Ho. rewrite (bind_Done_eq _ _ _ Ho).
  destruct (negb (mark o)).
  - bind_inv H s1 Hs1. rewrite (bind_Done_eq _ _ _ Hs1). by apply IH.
  - by apply IH.
Qed.

Lemma gc_mono fuel k s s' :
  gc fuel s = Done s' → gc (fuel + k) s = Done s'.
Proof.
  unfold gc. destruct (object_num s =? 0); [done|]. intros H.
  bind_inv H s1 Hs1. bind_inv H s2 Hs2.
  unfold gc_mark_all in *. bind_inv Hs1 m Hm.
  rewrite (bind_Done_eq _ _ _ (gc_mark_all_loop_mono _ _ k _ _ _ Hm)).
  simpl. inversion Hs1; subst s1. unfold gc_sweep in *.
  by rewrite (bind_Done_eq _ _ _ (gc_sweep_loop_mono _ k _ _ _ Hs2)).
Qed.

(** Whatever the budget, a [gc] that returns has done the above. *)
Lemma gc_collected_inv fuel s s' :
  wf s → gc fuel s = Done s' → collected s s'.
Proof.
  intros Hwf Hgc.
  destruct (gc_collected (fuel + S (size (heap s))) s Hwf ltac:(lia))
    as (s'' & Hgc' & Hcol).
  rewrite (gc_mono _ _ _ _ Hgc) in Hgc'. by inversion Hgc'; subst s''.
Qed.

(** ** The trigger check of [new_object] *)

Lemma collected_threshold s s' :
  wf s → collected s s' → threshold_inv s →
  threshold_inv s' ∧ (object_num s ≠ 0 → object_num s' < object_max s').
Proof.
  intros Hwf ((l' & Hchd & _) & _ & _ & _ & Hle & Hmax & Hwf')
    (H2 & Hnm & H0).
  destruct (wf_count s' l' Hwf' Hchd) as [_ Hb].
  unfold threshold_inv, GC_INITIAL_THRESHOLD in *. rewrite Hmax.
  destruct (Z.eqb_spec (object_num s) 0);
    [split; [|done]; repeat split; try lia; intros; by apply H0|].
  destruct (Z.eqb_spec (object_num s') 0); lia.
Qed.

Lemma collected_root s s' r :
  wf s → collected s s' → r ∈ roots s →
  ∃ o o', heap s !! r = Some o ∧ heap s' !! r = Some o' ∧
          payload o' = payload o.
Proof.
  intros Hwf ((l' & (_ & _ & Hall' & _) & Hl') & _ & _ & Hpay & _) Hr.
  assert (Hrt : rooted s r) by (exists r; split; [done|constructor]).
  apply Hl', Hall' in Hrt as [o' Ho'].
  destruct (Hpay r o' Ho') as (o & Ho & Hp & _). eauto.
Qed.

Lemma collect_if_full_total fuel s :
  wf s → (size (heap s) < fuel)%nat →
  ∃ s1, collect_if_full fuel s = Done s1.
Proof.
  intros Hwf Hfuel. unfold collect_if_full.
  destruct (object_num s =? object_max s); [|eauto].
  destruct (gc_collected fuel s Hwf Hfuel) as (s1 & Hgc & _). eauto.
Qed.

Lemma collect_if_full_inv fuel s s1 :
  wf s → collect_if_full fuel s = Done s1 →
  wf s1 ∧ stack s1 = stack s ∧ stack_size s1 = stack_size s ∧
  (∀ r, r ∈ roots s →
     ∃ o o1, heap s !! r = Some o ∧ heap s1 !! r = Some o1 ∧
             payload o1 = payload o) ∧
  (threshold_inv s → threshold_inv s1 ∧ object_num s1 < object_max s1).
Proof.
  intros Hwf. unfold collect_if_full.
  destruct (Z.eqb_spec (object_num s) (object_max s)) as [Heq|Hne].
  - intros Hgc. pose proof (gc_collected_inv _ _ _ Hwf Hgc) as Hcol.
    pose proof Hcol as (_ & Hst & Hss & _ & _ & _ & Hwf').
    split; [done|]. split; [done|]. split; [done|]. split.
    + intros r Hr. by apply collected_root.
    + intros Hinv. destruct (collected_threshold _ _ Hwf Hcol Hinv) as [? Hlt].
      split; [done|]. apply Hlt. destruct Hinv as (? & ? & ?). lia.
  - intros [= <-]. split; [done|]. split; [done|]. split; [done|]. split.
    + intros r Hr. destruct Hwf as (_ & _ & _ & _ & Hroots).
      destruct (Hroots r Hr) as [o Ho]. eauto.
    + intros Hinv. split; [done|]. destruct Hinv as (? & ? & ?). lia.
Qed.

Section Allocation.

(** The allocator and the budget are fixed throughout; the allocator keeps
    the contract of [malloc]. *)
Context (malloc : gmap N Object → addr) (fuel : nat).
Hypothesis malloc_ok : malloc_sound malloc.

Lemma new_object_run s t s1 :
  wf s1 → collect_if_full fuel s = Done s1 →
  new_object malloc fuel s t =
    if (malloc (heap s1) =? NULL)%N then Fault
    else Done (mkVM (malloc (heap s1)) (object_num s1 + 1) (object_max s1)
                 (stack_size s1) (stack s1)
                 (<[malloc (heap s1) :=
                      mkObject false (first_object s1) (fresh_payload t)]>
                    (heap s1)),
               malloc (heap s1)).
Proof.
  intros Hwf Hcol. unfold new_object. rewrite (bind_Done_eq _ _ _ Hcol).
  destruct (malloc (heap s1) =? NULL)%N; [done|].
  pose proof Hwf as ((l & Hchd) & _).
  destruct (wf_count _ _ Hwf Hchd) as [_ Hb].
  simpl. rewrite wrap_small by lia. done.
Qed.

(** ** The mutator operations in closed form *)

Lemma vm_push_int_run s v s1 :
  wf s → collect_if_full fuel s = Done s1 →
  vm_push_int malloc fuel s v =
    if (malloc (heap s1) =? NULL)%N then Fault
    else if stack_size s <? STACK_MAX then
      Done (mkVM (malloc (heap s1)) (object_num s1 + 1) (object_max s1)
              (stack_size s + 1)
              (<[Z.to_nat (stack_size s) := malloc (heap s1)]> (stack s))
              (<[malloc (heap s1) :=
                   mkObject false (first_object s1) (Int v)]> (heap s1)),
            malloc (heap s1))
    else Fault.
Proof.
  intros Hwf Hcol.
  destruct (collect_if_full_inv _ _ _ Hwf Hcol) as (Hwf1 & Hst & Hss & _).
  unfold vm_push_int. rewrite (new_object_run _ _ _ Hwf1 Hcol).
  destruct (malloc (heap s1) =? NULL)%N; [done|]. simpl.
  unfold store_value, deref. simpl. rewrite lookup_insert_eq. simpl.
  unfold vm_push. simpl. rewrite Hss, Hst.
  destruct (Z.ltb_spec (stack_size s) STACK_MAX); [|done]. simpl.
  destruct Hwf as (_ & _ & _ & [Hsz _] & _).
  rewrite wrap_small by (unfold STACK_MAX in *; lia).
  unfold with_stack_size, with_stack, with_payload. simpl.
  by rewrite insert_insert_eq.
Qed.

Lemma vm_pop_run s r :
  0 < stack_size s ≤ STACK_MAX →
  stack s !! Z.to_nat (stack_size s - 1) = Some r →
  vm_pop s = Done (with_stack_size (stack_size s - 1) s, r).
Proof.
  intros Hsz Hr. unfold vm_pop.
  destruct (Z.ltb_spec 0 (stack_size s)); [|lia].
  rewrite wrap_small by (unfold STACK_MAX in *; lia).
  rewrite (bind_Done_eq _ _ r); [done|].
  apply stack_at_Done. simpl. split; [lia|done].
Qed.

Lemma store_tail_run s a b o h t :
  heap s !! a = Some o → payload o = Pair h t →
  store_tail s a b =
    Done (with_heap (<[a := with_payload (Pair h b) o]> (heap s)) s).
Proof.
  intros Ho Hp. unfold store_tail.
  rewrite (bind_Done_eq _ _ o) by (by apply deref_Done). by rewrite Hp.
Qed.

Lemma store_head_run s a b o h t :
  heap s !! a = Some o → payload o = Pair h t →
  store_head s a b =
    Done (with_heap (<[a := with_payload (Pair b t) o]> (heap s)) s).
Proof.
  intros Ho Hp. unfold store_head.
  rewrite (bind_Done_eq _ _ o) by (by apply deref_Done). by rewrite Hp.
Qed.

#[local] Arguments vm_pop : simpl never.
#[local] Arguments vm_push : simpl never.
#[local] Arguments store_tail : simpl never.
#[local] Arguments store_head : simpl never.
#[local] Arguments wrap : simpl never.

Lemma vm_push_pair_run s s1 :
  wf s → collect_if_full fuel s = Done s1 →
  malloc (heap s1) ≠ NULL → 2 ≤ stack_size s →
  ∃ h t, stack_at s (stack_size s - 2) = Done h ∧
         stack_at s (stack_size s - 1) = Done t ∧
    vm_push_pair malloc fuel s =
      Done (mkVM (malloc (heap s1)) (object_num s1 + 1) (object_max s1)
              (stack_size s - 1)
              (<[Z.to_nat (stack_size s - 2) := malloc (heap s1)]> (stack s))
              (<[malloc (heap s1) :=
                   mkObject false (first_object s1) (Pair h t)]> (heap s1)),
            malloc (heap s1)).
Proof.
  intros Hwf Hcol Hnn H2.
  destruct (collect_if_full_inv _ _ _ Hwf Hcol) as (Hwf1 & Hst & Hss & _).
  pose proof Hwf as (_ & _ & _ & [Hsz Hlen] & _).
  destruct (lookup_lt_is_Some_2 (stack s) (Z.to_nat (stack_size s - 1)))
    as [t Ht]; [lia|].
  destruct (lookup_lt_is_Some_2 (stack s) (Z.to_nat (stack_size s - 2)))
    as [h Hh]; [lia|].
  exists h, t.
  split; [apply stack_at_Done; split; [unfold STACK_MAX in *; lia|done]|].
  split; [apply stack_at_Done; split; [unfold STACK_MAX in *; lia|done]|].
  unfold vm_push_pair. rewrite (new_object_run _ _ _ Hwf1 Hcol).
  destruct (N.eqb_spec (malloc (heap s1)) NULL); [done|].
  rewrite Hss, Hst. set (p := malloc (heap s1)). set (fo := first_object s1).
  simpl.
  erewrite vm_pop_run; [|simpl; lia|simpl; exact Ht]. simpl.
  erewrite store_tail_run; [|simpl; apply lookup_insert_eq|done]. simpl.
  rewrite insert_insert_eq.
  erewrite vm_pop_run; [|simpl; lia|].
  2:{ simpl. replace (stack_size s - 1 - 1) with (stack_size s - 2) by lia.
      exact Hh. }
  simpl.
  erewrite store_head_run; [|simpl; apply lookup_insert_eq|done]. simpl.
  rewrite insert_insert_eq.
  unfold vm_push. simpl.
  destruct (Z.ltb_spec (stack_size s - 1 - 1) STACK_MAX); [|lia].
  rewrite wrap_small by (unfold STACK_MAX in *; lia). simpl.
  replace (stack_size s - 1 - 1 + 1) with (stack_size s - 1) by lia.
  replace (stack_size s - 1 - 1) with (stack_size s - 2) by lia.
  done.
Qed.

Lemma vm_push_pair_fault s s1 :
  wf s → collect_if_full fuel s = Done s1 →
  malloc (heap s1) = NULL ∨ stack_size s < 2 →
  vm_push_pair malloc fuel s = Fault.
Proof.
  intros Hwf Hcol Hcase.
  destruct (collect_if_full_inv _ _ _ Hwf Hcol) as (Hwf1 & Hst & Hss & _).
  pose proof Hwf as (_ & _ & _ & [Hsz Hlen] & _).
  unfold vm_push_pair. rewrite (new_object_run _ _ _ Hwf1 Hcol).
  destruct (N.eqb_spec (malloc (heap s1)) NULL) as [|Hnn]; [done|].
  destruct Hcase as [|Hlt]; [done|].
  rewrite Hss, Hst. set (p := malloc (heap s1)). set (fo := first_object s1).
  simpl.
  destruct (Z.ltb_spec 0 (stack_size s)) as [Hpos|Hz].
  - assert (Hone : stack_size s = 1) by lia.
    destruct (lookup_lt_is_Some_2 (stack s) 0) as [t Ht]; [lia|].
    erewrite vm_pop_run; [|simpl; lia|simpl; rewrite Hone; exact Ht]. simpl.
    erewrite store_tail_run; [|simpl; apply lookup_insert_eq|done]. simpl.
    unfold vm_pop. simpl. rewrite Hone. done.
  - unfold vm_pop. simpl.
    destruct (Z.ltb_spec 0 (stack_size s)); [lia|done].
Qed.

(** ** Every operation keeps the state well-formed and the threshold
    bounded *)

Lemma new_vm_inv vm stack0 s :
  length stack0 = Z.to_nat STACK_MAX →
  new_vm vm stack0 = Done s → wf s ∧ threshold_inv s.
Proof.
  intros Hlen. unfold new_vm. destruct (vm =? NULL)%N; [done|]. intros [= <-].
  split; [|by unfold threshold_inv, GC_INITIAL_THRESHOLD; simpl].
  split.
  { exists []. split; [done|]. split; [constructor|]. split; [|done].
    intros a. simpl. rewrite lookup_empty. split.
    - by intros ?%elem_of_nil.
    - by intros []. }
  simpl. split. { intros a o. by rewrite lookup_empty. }
  split. { intros x y (o & h & t & Ho & _). by rewrite lookup_empty in Ho. }
  split.
  { split; [simpl; unfold STACK_MAX; lia|done]. }
  intros r. unfold roots. simpl. by intros ?%elem_of_nil.
Qed.

Lemma vm_push_keeps s v s' :
  wf s → threshold_inv s → is_Some (heap s !! v) →
  vm_push s v = Done s' → wf s' ∧ threshold_inv s'.
Proof.
  intros Hwf Hthr Hv H. pose proof Hwf as (_ & _ & _ & Hst & Hroots).
  assert (Hlt : stack_size s < STACK_MAX).
  { unfold vm_push in H. by destruct (Z.ltb_spec (stack_size s) STACK_MAX). }
  destruct (vm_push_spec s v Hst Hlt) as [Hrun Hr].
  rewrite Hrun in H. inversion H; subst s'; clear H.
  split; [|done]. apply (wf_same_heap s); try done.
  - destruct Hst as [Hsz Hlen]. split; simpl; [lia|].
    by rewrite length_insert.
  - intros r. rewrite Hr. intros [?| ->%list_elem_of_singleton]%elem_of_app;
      auto.
Qed.

Lemma vm_pop_keeps s s' r :
  wf s → threshold_inv s →
  vm_pop s = Done (s', r) → wf s' ∧ threshold_inv s'.
Proof.
  intros Hwf Hthr H. pose proof Hwf as (_ & _ & _ & Hst & Hroots).
  assert (Hlt : 0 < stack_size s).
  { unfold vm_pop in H. by destruct (Z.ltb_spec 0 (stack_size s)). }
  destruct (vm_pop_spec s Hst Hlt) as (r' & Hrun & _ & Hr).
  rewrite Hrun in H. inversion H; subst s' r'; clear H.
  split; [|done]. apply (wf_same_heap s); try done.
  - destruct Hst as [Hsz Hlen]. split; simpl; [lia|done].
  - intros x Hx. apply Hroots. rewrite Hr. apply elem_of_app. by left.
Qed.

Lemma new_object_inv s t s2 p :
  new_object malloc fuel s t = Done (s2, p) →
  ∃ s1, collect_if_full fuel s = Done s1 ∧ p = malloc (heap s1) ∧ p ≠ NULL.
Proof.
  unfold new_object. intros H. bind_inv H s1 Hs1. exists s1.
  destruct (N.eqb_spec (malloc (heap s1)) NULL); [done|].
  inversion H. done.
Qed.

Lemma vm_push_int_keeps s v s' p :
  wf s → threshold_inv s →
  vm_push_int malloc fuel s v = Done (s', p) → wf s' ∧ threshold_inv s'.
Proof.
  intros Hwf Hthr H.
  assert (∃ s1, collect_if_full fuel s = Done s1) as [s1 Hcol].
  { unfold vm_push_int in H. bind_inv H x Hx. destruct x as [s2 q].
    destruct (new_object_inv _ _ _ _ Hx) as (s1 & ? & _). eauto. }
  rewrite (vm_push_int_run _ _ _ Hwf Hcol) in H.
  destruct (N.eqb_spec (malloc (heap s1)) NULL) as [|Hnn]; [done|].
  destruct (Z.ltb_spec (stack_size s) STACK_MAX) as [Hlt|]; [|done].
  inversion H; subst s' p; clear H.
  destruct (collect_if_full_inv _ _ _ Hwf Hcol)
    as (Hwf1 & Hst & Hss & Hroots1 & Hthr1).
  destruct (Hthr1 Hthr) as [(H2 & Hle & H0) Hlt1].
  pose proof Hwf as (_ & _ & _ & Hstk & _).
  destruct (malloc_ok (heap s1)) as [|[Hfresh Hpl]]; [done|].
  assert (Hstk' : stack_ok (with_stack_size (stack_size s + 1)
            (with_stack (<[Z.to_nat (stack_size s) := malloc (heap s1)]>
                           (stack s)) s))).
  { destruct Hstk as [Hsz Hlen]. split; simpl; [lia|].
    by rewrite length_insert. }
  split.
  - eapply (wf_alloc s1 _ (malloc (heap s1)) (Int v)); try done.
    intros r Hr. change (r ∈ roots (with_stack_size (stack_size s + 1)
            (with_stack (<[Z.to_nat (stack_size s) := malloc (heap s1)]>
                           (stack s)) s))) in Hr.
    rewrite (proj2 (vm_push_spec s _ Hstk Hlt)) in Hr.
    apply elem_of_app in Hr as [Hr| ->%list_elem_of_singleton]; [|by left].
    right. destruct (Hroots1 r Hr) as (o & o1 & _ & Ho1 & _). eauto.
  - pose proof Hwf1 as ((l1 & Hchd1) & _).
    destruct (wf_count _ _ Hwf1 Hchd1) as [_ Hb].
    unfold threshold_inv. simpl. lia.
Qed.

Lemma roots_push_pair s p :
  stack_ok s → 2 ≤ stack_size s →
  roots (mkVM (first_object s) (object_num s) (object_max s)
           (stack_size s - 1)
           (<[Z.to_nat (stack_size s - 2) := p]> (stack s)) (heap s))
  = take (Z.to_nat (stack_size s - 2)) (stack s) ++ [p].
Proof.
  intros [Hsz Hlen] H2. unfold roots. simpl.
  replace (Z.to_nat (stack_size s - 1))
    with (S (Z.to_nat (stack_size s - 2))) by lia.
  rewrite (take_S_r _ _ p) by (apply list_lookup_insert_eq; lia).
  by rewrite take_insert_ge.
Qed.

Lemma elem_of_take_roots s n r :
  n ≤ stack_size s → r ∈ take (Z.to_nat n) (stack s) → r ∈ roots s.
Proof.
  intros Hn Hr. unfold roots.
  apply list_elem_of_lookup in Hr as [i Hi].
  apply lookup_take_Some in Hi as [Hi Hlt].
  apply list_elem_of_lookup. exists i. apply lookup_take_Some.
  split; [done|lia].
Qed.

Lemma vm_push_pair_keeps s s' p :
  wf s → threshold_inv s →
  vm_push_pair malloc fuel s = Done (s', p) → wf s' ∧ threshold_inv s'.
Proof.
  intros Hwf Hthr H.
  assert (∃ s1, collect_if_full fuel s = Done s1) as [s1 Hcol].
  { unfold vm_push_pair in H. bind_inv H x Hx. destruct x as [s2 q].
    destruct (new_object_inv _ _ _ _ Hx) as (s1 & ? & _). eauto. }
  assert (Hnn : malloc (heap s1) ≠ NULL).
  { intros Hn. rewrite (vm_push_pair_fault _ _ Hwf Hcol) in H; auto.
    done. }
  assert (H2 : 2 ≤ stack_size s).
  { destruct (Z.le_gt_cases 2 (stack_size s)); [done|].
    rewrite (vm_push_pair_fault _ _ Hwf Hcol) in H; [done|]. right. lia. }
  destruct (vm_push_pair_run _ _ Hwf Hcol Hnn H2)
    as (h & t & Hh & Ht & Hrun).
  rewrite Hrun in H. inversion H; subst s' p; clear H.
  destruct (collect_if_full_inv _ _ _ Hwf Hcol)
    as (Hwf1 & Hst & Hss & Hroots1 & Hthr1).
  destruct (Hthr1 Hthr) as [(H2' & Hle & H0) Hlt1].
  pose proof Hwf as (_ & _ & _ & Hstk & _).
  destruct (malloc_ok (heap s1)) as [|[Hfresh Hpl]]; [done|].
  assert (Hin : ∀ i r, 0 ≤ i < stack_size s → stack_at s i = Done r →
            is_Some (heap s1 !! r)).
  { intros i r Hi Hr.
    destruct (Hroots1 r) as (o & o1 & _ & Ho1 & _); [|eauto].
    apply elem_of_roots; [done|]. eauto. }
  split.
  - eapply (wf_alloc s1 _ (malloc (heap s1)) (Pair h t)); try done.
    + intros h' t' [= <- <-]. split; eapply Hin; eauto; lia.
    + destruct Hstk as [Hsz Hlen]. split; simpl; [lia|].
      by rewrite length_insert.
    + intros r Hr.
      change (r ∈ take (Z.to_nat (stack_size s - 1))
                (<[Z.to_nat (stack_size s - 2) := malloc (heap s1)]>
                   (stack s))) in Hr.
      pose proof (roots_push_pair s (malloc (heap s1)) Hstk H2) as Heq.
      unfold roots in Heq. simpl in Heq. rewrite Heq in Hr.
      apply elem_of_app in Hr as [Hr| ->%list_elem_of_singleton]; [|by left].
      right. apply (elem_of_take_roots s) in Hr; [|lia].
      destruct (Hroots1 r Hr) as (o & o1 & _ & Ho1 & _). eauto.
  - pose proof Hwf1 as ((l1 & Hchd1) & _).
    destruct (wf_count _ _ Hwf1 Hchd1) as [_ Hb].
    unfold threshold_inv. simpl. lia.
Qed.

End Allocation.

Lemma gc_keeps fuel s s' :
  wf s → threshold_inv s → gc fuel s = Done s' → wf s' ∧ threshold_inv s'.
Proof.
  intros Hwf Hthr Hgc. pose proof (gc_collected_inv _ _ _ Hwf Hgc) as Hcol.
  split; [apply Hcol|]. by apply (collected_threshold s s').
Qed.

(** Every state the operations produce is well-formed and has its
    threshold bounded. *)
Lemma reachable_inv s : reachable s → wf s ∧ threshold_inv s.
Proof.
  induction 1 as [vm stack0 s Hlen Hnew
                 |s v s' _ [Hwf Hthr] Hv Hop
                 |s s' r _ [Hwf Hthr] Hop
                 |malloc fuel s v s' o _ [Hwf Hthr] Hm Hop
                 |malloc fuel s s' o _ [Hwf Hthr] Hm Hop
                 |fuel s s' _ [Hwf Hthr] Hop
                 |s a b s' _ [Hwf Hthr] Hb Hop
                 |s a b s' _ [Hwf Hthr] Hb Hop].
  - by eapply new_vm_inv.
  - by eapply vm_push_keeps.
  - by eapply vm_pop_keeps.
  - by eapply vm_push_int_keeps.
  - by eapply vm_push_pair_keeps.
  - by eapply gc_keeps.
  - split; [by eapply wf_store_head|].
    apply store_head_inv in Hop as (? & ? & ? & _ & _ & ->). done.
  - split; [by eapply wf_store_tail|].
    apply store_tail_inv in Hop as (? & ? & ? & _ & _ & ->). done.
Qed.

(** ** The bump allocator and the test scenarios *)

Lemma bump_top (m : gmap N Object) k :
  is_Some (m !! k) → (k ≤ map_fold (λ a _ acc, N.max a acc) 0 m)%N.
Proof.
  revert k.
  apply (map_fold_weak_ind
           (λ r (m : gmap N Object), ∀ k, is_Some (m !! k) → (k ≤ r)%N)).
  - intros k. rewrite lookup_empty. by intros [].
  - intros i x m' r Hi IH k Hk.
    apply lookup_insert_is_Some in Hk as [<-|[_ Hk]]; [lia|].
    specialize (IH k Hk). lia.
Qed.

Lemma bump_sound : malloc_sound bump.
Proof.
  intros m. unfold bump, OBJECT_ALIGN.
  set (top := map_fold _ _ m).
  destruct (N.ltb_spec (8 * (1 + top / 8)) ADDR_LIMIT) as [Hlt|]; [|by left].
  right. pose proof (N.div_mod top 8 ltac:(done)) as Hdm.
  pose proof (N.mod_lt top 8 ltac:(done)) as Hm.
  split.
  - destruct (m !! (8 * (1 + top / 8))%N) as [o|] eqn:Ho; [|done].
    pose proof (bump_top m _ (mk_is_Some _ _ Ho)) as Hle.
    fold top in Hle. lia.
  - split; [unfold NULL; lia|]. split; [done|].
    rewrite N.mul_comm. apply N.Div0.mod_mul.
Qed.

Lemma reachable_vm0 : reachable vm0.
Proof.
  by apply (reachable_new 1%N (replicate (Z.to_nat STACK_MAX) NULL)).
Qed.

Lemma reachable_run_push_int v s :
  reachable s → reachable (run_push_int v s).
Proof.
  intros Hs. unfold run_push_int.
  destruct (vm_push_int bump 64 s v) as [[s' o]| |] eqn:Hop; simpl; try done.
  eapply reachable_push_int; [exact Hs|exact bump_sound|exact Hop].
Qed.

Lemma reachable_run_push_pair s :
  reachable s → reachable (run_push_pair s).
Proof.
  intros Hs. unfold run_push_pair.
  destruct (vm_push_pair bump 64 s) as [[s' o]| |] eqn:Hop; simpl; try done.
  eapply reachable_push_pair; [exact Hs|exact bump_sound|exact Hop].
Qed.

Lemma reachable_run_pop s : reachable s → reachable (run_pop s).
Proof.
  intros Hs. unfold run_pop.
  destruct (vm_pop s) as [[s' r]| |] eqn:Hop; simpl; try done.
  eapply reachable_pop; [exact Hs|exact Hop].
Qed.

Lemma reachable_run_gc s : reachable s → reachable (run_gc s).
Proof.
  intros Hs. unfold run_gc.
  destruct (gc 64 s) as [s'| |] eqn:Hop; simpl; try done.
  eapply reachable_gc; [exact Hs|exact Hop].
Qed.

Ltac reachable_steps :=
  repeat lazymatch goal with
         | |- reachable (run_push_pair _) => apply reachable_run_push_pair
         | |- reachable (run_push_int _ _) => apply reachable_run_push_int
         | |- reachable (run_pop _) => apply reachable_run_pop
         | |- reachable (run_gc _) => apply reachable_run_gc
         | |- reachable vm0 => exact reachable_vm0
         end.

Lemma reachable_one_int_state : reachable one_int_state.
Proof. unfold one_int_state. reachable_steps. Qed.

Lemma reachable_test3_state : reachable test3_state.
Proof.
  unfold test3_state. reachable_steps.
Qed.

Lemma reachable_test4_state : reachable test4_state.
Proof.
  set (s := run_push_pair (run_push_int 4 (run_push_int 3
              (run_push_pair (run_push_int 2 (run_push_int 1 vm0)))))).
  assert (Hs : reachable s).
  { unfold s. reachable_steps. }
  set (a := value_of (stack_at s 0) NULL).
  set (b := value_of (stack_at s 1) NULL).
  set (s1 := value_of (store_tail s a b) s).
  assert (Hs1 : reachable s1).
  { apply (reachable_store_tail s a b); [done|vm_compute; eauto|by vm_compute]. }
  apply (reachable_store_tail s1 b a); [done|vm_compute; eauto|by vm_compute].
Qed.

(** ** The assertions of the test functions

    Each test of the source asserts the object count after its call of
    [gc]; the embedding computes the same counts. *)

Example test1_count :
  object_num (run_gc (run_push_int 2 (run_push_int 1 vm0))) = 2.
Proof. by vm_compute. Qed.

Example test2_count :
  object_num
    (run_gc (run_pop (run_pop (run_push_int 2 (run_push_int 1 vm0))))) = 0.
Proof. by vm_compute. Qed.

Example test3_count : object_num (run_gc test3_state) = 7.
Proof. by vm_compute. Qed.

Example test4_count : object_num (run_gc test4_state) = 4.
Proof. by vm_compute. Qed.

Example test4_free_vm :
  (s ← free_vm 64 test4_state; Done (object_num s, heap s)) = Done (0, ∅).
Proof. by vm_compute. Qed.

(** * The claims *)

(** ** Push and pop on the Root Set *)

(** C8.  [vm_push] aborts exactly when the Root Set is at its capacity
    [STACK_MAX]; otherwise it appends the reference and the depth grows by
    one.  [vm_pop] aborts exactly when the Root Set is empty; otherwise it
    removes the last entry, the one pushed most recently, and returns it.
    A pop right after a push gives back the pushed reference and the Root
    Set as it was. *)
Theorem push_pop_fatal_iff (s : VM) (v : addr) :
  stack_ok s →
  (vm_push s v = Fault ↔ stack_size s = STACK_MAX) ∧
  (stack_size s < STACK_MAX →
     ∃ s', vm_push s v = Done s' ∧
           roots s' = roots s ++ [v] ∧
           stack_size s' = stack_size s + 1 ∧
           ∃ s'', vm_pop s' = Done (s'', v) ∧ roots s'' = roots s ∧
                  stack_size s'' = stack_size s) ∧
  (vm_pop s = Fault ↔ stack_size s = 0) ∧
  (0 < stack_size s →
     ∃ s' r, vm_pop s = Done (s', r) ∧
             roots s = roots s' ++ [r] ∧
             stack_size s' = stack_size s - 1).
Proof.
  intros Hst. pose proof Hst as [Hsz Hlen].
  assert (Hpush : stack_size s < STACK_MAX →
     ∃ s', vm_push s v = Done s' ∧
           roots s' = roots s ++ [v] ∧
           stack_size s' = stack_size s + 1 ∧
           ∃ s'', vm_pop s' = Done (s'', v) ∧ roots s'' = roots s ∧
                  stack_size s'' = stack_size s).
  { intros Hlt. destruct (vm_push_spec s v Hst Hlt) as [Hrun Hr].
    eexists. split; [exact Hrun|]. split; [exact Hr|]. split; [done|].
    set (s1 := with_stack_size _ _) in *.
    assert (Hst1 : stack_ok s1).
    { split; simpl; [lia|]. by rewrite length_insert. }
    destruct (vm_pop_spec s1 Hst1) as (r & Hpop & _ & Hr'); [simpl; lia|].
    rewrite Hr in Hr'. apply app_inj_tail in Hr' as [Hr' <-].
    eexists. split; [exact Hpop|]. split; [done|]. simpl. lia. }
  assert (Hpop : 0 < stack_size s →
     ∃ s' r, vm_pop s = Done (s', r) ∧
             roots s = roots s' ++ [r] ∧
             stack_size s' = stack_size s - 1).
  { intros Hlt. destruct (vm_pop_spec s Hst Hlt) as (r & Hrun & _ & Hr).
    eexists. exists r. split; [exact Hrun|]. by split. }
  split.
  { split.
    - intros Hf. destruct (Z.eq_dec (stack_size s) STACK_MAX); [done|].
      destruct Hpush as (s' & Hrun & _); [lia|]. congruence.
    - intros Heq. unfold vm_push.
      destruct (Z.ltb_spec (stack_size s) STACK_MAX); [lia|done]. }
  split; [done|]. split; [|done]. split.
  - intros Hf. destruct (Z.eq_dec (stack_size s) 0); [done|].
    destruct Hpop as (s' & r & Hrun & _); [lia|]. congruence.
  - intros Heq. unfold vm_pop.
    destruct (Z.ltb_spec 0 (stack_size s)); [lia|done].
Qed.

Lemma push_pop_fatal_iff_witness :
  stack_ok test3_state ∧
  (vm_push test3_state 8%N = Fault ↔ stack_size test3_state = STACK_MAX) ∧
  (vm_pop test3_state = Fault ↔ stack_size test3_state = 0).
Proof.
  assert (Hst : stack_ok test3_state).
  { split; [by vm_compute|by vm_compute]. }
  split; [exact Hst|].
  destruct (push_pop_fatal_iff test3_state 8%N Hst) as (Hpush & _ & Hpop & _).
  split; [exact Hpush|exact Hpop].
Defined.

(** ** The collection cycle *)

(** C1.  On every well-formed state [gc] returns, and the objects on the
    heap chain afterwards are exactly the objects reachable from the Root
    Set as it was when the cycle started: the chain [l'] lists each of them
    once, no other object is left in the store, and [object_num] is their
    number. *)
Theorem gc_keeps_exactly_reachable (fuel : nat) (s : VM) :
  wf s → (size (heap s) < fuel)%nat →
  ∃ s' l', gc fuel s = Done s' ∧
    chain (heap s') (first_object s') l' ∧ NoDup l' ∧
    (∀ a, a ∈ l' ↔ rooted s a) ∧
    (∀ a, is_Some (heap s' !! a) ↔ rooted s a) ∧
    object_num s' = Z.of_nat (length l').
Proof.
  intros Hwf Hfuel.
  destruct (gc_spec fuel s Hwf Hfuel)
    as (s' & l' & Hgc & (Hch & Hnd & Hall & Hnum) & Hl' & _).
  exists s', l'. split; [done|]. split; [done|]. split; [done|].
  split; [done|]. split; [|done].
  intros a. by rewrite <- Hall.
Qed.

Lemma gc_keeps_exactly_reachable_witness :
  wf test4_state ∧ (size (heap test4_state) < 64)%nat ∧
  ∃ s' l', gc 64 test4_state = Done s' ∧
    chain (heap s') (first_object s') l' ∧ NoDup l' ∧
    (∀ a, a ∈ l' ↔ rooted test4_state a) ∧
    (∀ a, is_Some (heap s' !! a) ↔ rooted test4_state a) ∧
    object_num s' = Z.of_nat (length l').
Proof.
  assert (Hwf : wf test4_state)
    by exact (proj1 (reachable_inv _ reachable_test4_state)).
  assert (Hsz : (size (heap test4_state) < 64)%nat) by (vm_compute; lia).
  split; [exact Hwf|]. split; [exact Hsz|].
  exact (gc_keeps_exactly_reachable 64 test4_state Hwf Hsz).
Defined.

(** C3.  On every well-formed state, whatever cycles the object graph has,
    the mark phase returns once its recursion budget exceeds the number of
    objects; it changes nothing but marks, and on return an object is
    marked exactly when it is reachable from the Root Set. *)
Theorem gc_mark_all_terminates (fuel : nat) (s : VM) :
  wf s → (size (heap s) < fuel)%nat →
  ∃ s', gc_mark_all fuel s = Done s' ∧
    (∀ a, rooted s a → marked (heap s') a) ∧
    (∀ a, marked (heap s') a → rooted s a) ∧
    mark_ext (heap s) (heap s') ∧
    stack s' = stack s ∧ stack_size s' = stack_size s.
Proof.
  intros Hwf Hfuel.
  destruct (gc_mark_all_spec fuel s Hwf Hfuel) as (m' & Hrun & He & Hm).
  exists (with_heap m' s). split; [done|]. simpl.
  split; [intros a Ha; by apply Hm|]. split; [intros a Ha; by apply Hm|].
  done.
Qed.

Lemma gc_mark_all_terminates_witness :
  wf test4_state ∧ (size (heap test4_state) < 64)%nat ∧
  edge (heap test4_state) 24%N 48%N ∧ edge (heap test4_state) 48%N 24%N ∧
  ∃ s', gc_mark_all 64 test4_state = Done s' ∧
    (∀ a, rooted test4_state a → marked (heap s') a) ∧
    (∀ a, marked (heap s') a → rooted test4_state a) ∧
    mark_ext (heap test4_state) (heap s') ∧
    stack s' = stack test4_state ∧ stack_size s' = stack_size test4_state.
Proof.
  assert (Hwf : wf test4_state)
    by exact (proj1 (reachable_inv _ reachable_test4_state)).
  assert (Hsz : (size (heap test4_state) < 64)%nat) by (vm_compute; lia).
  split; [exact Hwf|]. split; [exact Hsz|].
  split. { exists (mkObject false 16%N (Pair 8%N 48%N)), 8%N, 48%N.
           split; [by vm_compute|]. split; [done|by right]. }
  split. { exists (mkObject false 40%N (Pair 32%N 24%N)), 32%N, 24%N.
           split; [by vm_compute|]. split; [done|by right]. }
  exact (gc_mark_all_terminates 64 test4_state Hwf Hsz).
Defined.

(** C5.  A collection cycle entered with [object_num > 0] returns with the
    threshold set to twice the number of objects left when some are left,
    and to [GC_INITIAL_THRESHOLD] when none is. *)
Theorem gc_sets_threshold (fuel : nat) (s : VM) :
  wf s → 0 < object_num s → (size (heap s) < fuel)%nat →
  ∃ s', gc fuel s = Done s' ∧
    0 ≤ object_num s' ∧
    (0 < object_num s' → object_max s' = object_num s' * 2) ∧
    (object_num s' = 0 → object_max s' = GC_INITIAL_THRESHOLD).
Proof.
  intros Hwf Hpos Hfuel.
  destruct (gc_spec fuel s Hwf Hfuel)
    as (s' & l' & Hgc & (_ & _ & _ & Hnum) & _ & _ & _ & _ & _ & Hmax & _).
  exists s'. split; [done|]. split; [lia|]. rewrite Hmax.
  destruct (Z.eqb_spec (object_num s) 0); [lia|].
  destruct (Z.eqb_spec (object_num s') 0); split; intros; lia || done.
Qed.

Lemma gc_sets_threshold_witness :
  wf test4_state ∧ 0 < object_num test4_state ∧
  (size (heap test4_state) < 64)%nat ∧
  ∃ s', gc 64 test4_state = Done s' ∧
    0 ≤ object_num s' ∧
    (0 < object_num s' → object_max s' = object_num s' * 2) ∧
    (object_num s' = 0 → object_max s' = GC_INITIAL_THRESHOLD).
Proof.
  assert (Hwf : wf test4_state)
    by exact (proj1 (reachable_inv _ reachable_test4_state)).
  assert (Hpos : 0 < object_num test4_state) by (by vm_compute).
  assert (Hsz : (size (heap test4_state) < 64)%nat) by (vm_compute; lia).
  split; [exact Hwf|]. split; [exact Hpos|]. split; [exact Hsz|].
  exact (gc_sets_threshold 64 test4_state Hwf Hpos Hsz).
Defined.

(** C9.  A collection cycle leaves the stack array and its depth as they
    were, and every object that is still in the store afterwards was there
    before at the same address, with the same type and the same payload
    (integer value, or head and tail), and has its mark clear. *)
Theorem gc_frame (fuel : nat) (s : VM) :
  wf s → (size (heap s) < fuel)%nat →
  ∃ s', gc fuel s = Done s' ∧
    stack_size s' = stack_size s ∧ stack s' = stack s ∧
    roots s' = roots s ∧
    ∀ a o', heap s' !! a = Some o' →
      ∃ o, heap s !! a = Some o ∧ type o' = type o ∧
           payload o' = payload o ∧ mark o' = false.
Proof.
  intros Hwf Hfuel.
  destruct (gc_spec fuel s Hwf Hfuel)
    as (s' & l' & Hgc & _ & _ & Hst & Hss & Hpay & _).
  exists s'. split; [done|]. split; [done|]. split; [done|].
  split; [unfold roots; by rewrite Hst, Hss|].
  intros a o' Ho'. destruct (Hpay a o' Ho') as (o & Ho & Hp & Hm).
  exists o. unfold type. rewrite Hp. done.
Qed.

Lemma gc_frame_witness :
  wf test4_state ∧ (size (heap test4_state) < 64)%nat ∧
  ∃ s', gc 64 test4_state = Done s' ∧
    stack_size s' = stack_size test4_state ∧ stack s' = stack test4_state ∧
    roots s' = roots test4_state ∧
    ∀ a o', heap s' !! a = Some o' →
      ∃ o, heap test4_state !! a = Some o ∧ type o' = type o ∧
           payload o' = payload o ∧ mark o' = false.
Proof.
  assert (Hwf : wf test4_state)
    by exact (proj1 (reachable_inv _ reachable_test4_state)).
  assert (Hsz : (size (heap test4_state) < 64)%nat) by (vm_compute; lia).
  split; [exact Hwf|]. split; [exact Hsz|].
  exact (gc_frame 64 test4_state Hwf Hsz).
Defined.

(** C7.  [free_vm] on any well-formed state, whatever its stack and heap
    hold, reaches its call of [free(vm)] with no object left:
    [object_num] is zero, the chain is empty and so is the store. *)
Theorem free_vm_reclaims_all (fuel : nat) (s : VM) :
  wf s → (size (heap s) < fuel)%nat →
  ∃ s', free_vm fuel s = Done s' ∧
    object_num s' = 0 ∧ first_object s' = NULL ∧
    chain (heap s') (first_object s') [] ∧ heap s' = ∅.
Proof.
  intros Hwf Hfuel. unfold free_vm.
  assert (Hwf0 : wf (with_stack_size 0 s)).
  { apply (wf_same_heap s); try done.
    - destruct Hwf as (_ & _ & _ & [Hsz Hlen] & _).
      split; simpl; [unfold STACK_MAX; lia|done].
    - intros r. unfold roots. simpl. by intros ?%elem_of_nil. }
  destruct (gc_spec fuel (with_stack_size 0 s) Hwf0 Hfuel)
    as (s' & l' & Hgc & (Hch & Hnd & Hall & Hnum) & Hl' & _).
  assert (l' = []) as ->.
  { destruct l' as [|a l']; [done|].
    destruct (proj1 (Hl' a) ltac:(left)) as (r & Hr & _).
    unfold roots in Hr. simpl in Hr. by apply elem_of_nil in Hr. }
  exists s'. split; [done|]. split; [done|]. simpl in Hch.
  split; [done|]. split; [done|].
  apply map_empty. intros a. apply eq_None_not_Some.
  intros Ha%Hall. by apply elem_of_nil in Ha.
Qed.

Lemma free_vm_reclaims_all_witness :
  wf test4_state ∧ (size (heap test4_state) < 64)%nat ∧
  ∃ s', free_vm 64 test4_state = Done s' ∧
    object_num s' = 0 ∧ first_object s' = NULL ∧
    chain (heap s') (first_object s') [] ∧ heap s' = ∅.
Proof.
  assert (Hwf : wf test4_state)
    by exact (proj1 (reachable_inv _ reachable_test4_state)).
  assert (Hsz : (size (heap test4_state) < 64)%nat) by (vm_compute; lia).
  split; [exact Hwf|]. split; [exact Hsz|].
  exact (free_vm_reclaims_all 64 test4_state Hwf Hsz).
Defined.

(** ** Two cycles in a row *)

Lemma collected_reach s s1 :
  wf s → collected s s1 →
  ∀ x a, rooted s x → reach (heap s) x a → reach (heap s1) x a.
Proof.
  intros Hwf ((l' & (_ & _ & Hall' & _) & Hl') & _ & _ & Hpay & _) x a Hx Hr.
  induction Hr as [|x y z Hxy _ IH]; [constructor|].
  assert (Hy : rooted s y).
  { destruct Hx as (r & Hr & Hreach). exists r. split; [done|].
    by eapply rtc_r. }
  eapply rtc_l; [|by apply IH].
  destruct Hxy as (o & h & t & Ho & Hp & Hyy).
  apply Hl', Hall' in Hx as [o' Ho'].
  destruct (Hpay x o' Ho') as (o0 & Ho0 & Hp0 & _).
  assert (o0 = o) by congruence. subst o0.
  exists o', h, t. rewrite Hp0. auto.
Qed.

Lemma collected_all_rooted s s1 :
  wf s → collected s s1 → ∀ a, is_Some (heap s1 !! a) → rooted s1 a.
Proof.
  intros Hwf Hcol a Ha.
  pose proof Hcol as ((l' & (_ & _ & Hall' & _) & Hl') & Hst & Hss & _).
  apply Hall', Hl' in Ha. pose proof Ha as (r & Hr & Hreach).
  exists r. split.
  - unfold roots in *. by rewrite Hst, Hss.
  - apply (collected_reach s s1); try done.
    exists r. split; [done|constructor].
Qed.

(** C6.  When [gc] has just returned [s1], running it again returns [s1]
    itself: the second cycle frees nothing and leaves the store, the chain,
    [object_num] and every other field as they are. *)
Theorem gc_twice_is_noop (fuel fuel' : nat) (s s1 : VM) :
  wf s → gc fuel s = Done s1 → (size (heap s1) < fuel')%nat →
  gc fuel' s1 = Done s1.
Proof.
  intros Hwf Hgc Hfuel.
  pose proof (gc_collected_inv _ _ _ Hwf Hgc) as Hcol.
  pose proof (collected_all_rooted _ _ Hwf Hcol) as Hrooted.
  pose proof Hcol as ((l1 & Hchd1 & _) & _ & _ & _ & _ & Hmax & Hwf1).
  pose proof Hchd1 as (Hch & Hnd & Hall & Hnum).
  destruct (wf_count _ _ Hwf1 Hchd1) as [Hlen Hb].
  unfold gc. destruct (Z.eqb_spec (object_num s1) 0) as [|Hne]; [done|].
  destruct (gc_mark_all_spec fuel' s1 Hwf1 Hfuel) as (m1 & Hmark & He & Hm).
  rewrite (bind_Done_eq _ _ _ Hmark). unfold gc_sweep.
  destruct (gc_sweep_loop_all_marked l1 fuel' (with_heap m1 s1) SlotFirst
              (first_object s1)) as (m' & Hrun & Hm'); try done.
  { simpl. eapply chain_ext; [|exact Hch]. intros a _.
    by apply mark_ext_next. }
  { intros a Ha. simpl. by apply Hm, Hrooted, Hall. }
  { lia. }
  rewrite (bind_Done_eq _ _ _ Hrun). simpl.
  assert (m' = heap s1) as ->.
  { apply map_eq. intros x. rewrite Hm'. simpl.
    pose proof (He x) as Hx. pose proof (Hall x) as Hax.
    destruct Hwf1 as (_ & Hmarks & _).
    destruct (decide (x ∈ l1)) as [Hin|Hnin].
    - destruct (heap s1 !! x) as [o|] eqn:Ho, (m1 !! x) as [o1|] eqn:Ho1;
        try done.
      destruct Hx as (Hn & Hp & _). destruct (Hmarks x o Ho) as [Hmo _].
      simpl. f_equal. destruct o, o1. unfold with_mark. simpl in *.
      congruence.
    - destruct (heap s1 !! x) as [o|] eqn:Ho, (m1 !! x) as [o1|] eqn:Ho1;
        try done.
      destruct Hnin. apply Hax. eauto. }
  assert (Hthr : (if negb (object_num s1 =? 0) then wrap (object_num s1 * 2)
                  else GC_INITIAL_THRESHOLD) = object_max s1).
  { destruct (Z.eqb_spec (object_num s1) 0); [done|]. simpl.
    rewrite wrap_small by lia. rewrite Hmax.
    destruct (Z.eqb_spec (object_num s) 0) as [H0|]; [|done].
    unfold gc in Hgc. rewrite H0 in Hgc. simpl in Hgc.
    inversion Hgc; subst s1. done. }
  rewrite Hthr. by destruct s1.
Qed.

Lemma gc_twice_is_noop_witness :
  wf test4_state ∧ gc 64 test4_state = Done (run_gc test4_state) ∧
  (size (heap (run_gc test4_state)) < 64)%nat ∧
  gc 64 (run_gc test4_state) = Done (run_gc test4_state).
Proof.
  assert (Hwf : wf test4_state)
    by exact (proj1 (reachable_inv _ reachable_test4_state)).
  assert (Hgc : gc 64 test4_state = Done (run_gc test4_state))
    by (by vm_compute).
  assert (Hsz : (size (heap (run_gc test4_state)) < 64)%nat)
    by (vm_compute; lia).
  split; [exact Hwf|]. split; [exact Hgc|]. split; [exact Hsz|].
  exact (gc_twice_is_noop 64 64 test4_state _ Hwf Hgc Hsz).
Defined.

(** ** The threshold *)

(** C10.  In every state the operations can produce from a new machine the
    threshold is positive, [object_num] does not exceed it, and it is 8
    whenever [object_num] is zero.  So the test [object_num == object_max]
    of [new_object] never misses a count that has passed the threshold. *)
Theorem reachable_threshold_bounds (s : VM) :
  reachable s →
  0 < object_max s ∧ object_num s ≤ object_max s ∧
  (object_num s = 0 → object_max s = 8).
Proof.
  intros Hs. destruct (reachable_inv s Hs) as [_ (H2 & Hle & H0)].
  split; [lia|]. split; [done|]. exact H0.
Qed.

Lemma reachable_threshold_bounds_witness :
  reachable (run_gc test4_state) ∧
  0 < object_max (run_gc test4_state) ∧
  object_num (run_gc test4_state) ≤ object_max (run_gc test4_state) ∧
  (object_num (run_gc test4_state) = 0 →
   object_max (run_gc test4_state) = 8).
Proof.
  assert (Hs : reachable (run_gc test4_state))
    by exact (reachable_run_gc _ reachable_test4_state).
  split; [exact Hs|].
  exact (reachable_threshold_bounds _ Hs).
Defined.

(** C2, as the specification states it, fails: with one integer on the
    stack a collection cycle leaves [object_num = 1] and sets the threshold
    to 2, which is neither [max (1 * 2) 8] nor at least the initial
    threshold 8. *)
Lemma threshold_below_initial :
  reachable one_int_state ∧
  ∃ s', gc 64 one_int_state = Done s' ∧ reachable s' ∧
        0 < object_num s' ∧
        object_max s' ≠ Z.max (object_num s' * 2) GC_INITIAL_THRESHOLD ∧
        ¬ (GC_INITIAL_THRESHOLD ≤ object_max s').
Proof.
  split; [exact reachable_one_int_state|].
  exists (run_gc one_int_state).
  split; [by vm_compute|].
  split; [exact (reachable_run_gc _ reachable_one_int_state)|].
  split; [by vm_compute|]. split; by vm_compute.
Qed.

(** C2, amended.  In every state the operations can produce the threshold
    is at least 2, and a collection cycle from such a state returns with
    the threshold equal to twice [object_num] when [object_num > 0] and to
    [GC_INITIAL_THRESHOLD] when [object_num = 0]. *)
Theorem threshold_after_gc (s : VM) :
  reachable s →
  2 ≤ object_max s ∧
  ∀ fuel, (size (heap s) < fuel)%nat →
    ∃ s', gc fuel s = Done s' ∧
      2 ≤ object_max s' ∧
      (0 < object_num s' → object_max s' = object_num s' * 2) ∧
      (object_num s' = 0 → object_max s' = GC_INITIAL_THRESHOLD).
Proof.
  intros Hs. destruct (reachable_inv s Hs) as [Hwf Hthr].
  split; [apply Hthr|]. intros fuel Hfuel.
  destruct (gc_collected fuel s Hwf Hfuel) as (s' & Hgc & Hcol).
  exists s'. split; [done|].
  destruct (collected_threshold s s' Hwf Hcol Hthr) as [(H2 & Hle & H0) _].
  split; [done|]. split; [|done].
  destruct Hcol as ((l' & (_ & _ & _ & Hnum) & _) & _ & _ & _ & Hnle & Hmax & _).
  destruct Hthr as (_ & _ & H0s).
  intros Hpos. rewrite Hmax.
  destruct (Z.eqb_spec (object_num s) 0); [lia|].
  destruct (Z.eqb_spec (object_num s') 0); [lia|done].
Qed.

Lemma threshold_after_gc_witness :
  reachable one_int_state ∧
  2 ≤ object_max one_int_state ∧
  ∀ fuel, (size (heap one_int_state) < fuel)%nat →
    ∃ s', gc fuel one_int_state = Done s' ∧
      2 ≤ object_max s' ∧
      (0 < object_num s' → object_max s' = object_num s' * 2) ∧
      (object_num s' = 0 → object_max s' = GC_INITIAL_THRESHOLD).
Proof.
  split; [exact reachable_one_int_state|].
  exact (threshold_after_gc _ reachable_one_int_state).
Defined.

(** ** Building a pair *)

Lemma roots_last_two s h t :
  stack_ok s → 2 ≤ stack_size s →
  stack_at s (stack_size s - 2) = Done h →
  stack_at s (stack_size s - 1) = Done t →
  roots s = take (Z.to_nat (stack_size s - 2)) (stack s) ++ [h; t].
Proof.
  intros [Hsz Hlen] H2 [_ Hh]%stack_at_Done [_ Ht]%stack_at_Done.
  unfold roots.
  replace (Z.to_nat (stack_size s))
    with (S (S (Z.to_nat (stack_size s - 2)))) by lia.
  rewrite (take_S_r _ _ t)
    by (by replace (S (Z.to_nat (stack_size s - 2)))
          with (Z.to_nat (stack_size s - 1)) by lia).
  rewrite (take_S_r _ _ h) by done.
  by rewrite <- app_assoc.
Qed.

(** C4.  With at least two entries [... h t] on the Root Set,
    [vm_push_pair] first runs the trigger check of [new_object] on the
    whole Root Set: when the count has reached the threshold this is a
    collection cycle, after which the Root Set is as before and both [h]
    and [t] are still in the store with their payloads.  Then, unless the
    allocator fails, it returns a new pair whose tail is the top entry [t]
    and whose head is the entry [h] below it, with the two entries replaced
    on the Root Set by the pair. *)
Theorem vm_push_pair_operands (malloc : gmap N Object → addr) (fuel : nat)
    (s : VM) :
  wf s → malloc_sound malloc → 2 ≤ stack_size s →
  (size (heap s) < fuel)%nat →
  ∃ s1 base h t,
    roots s = base ++ [h; t] ∧
    collect_if_full fuel s = Done s1 ∧
    (object_num s = object_max s → gc fuel s = Done s1) ∧
    (object_num s ≠ object_max s → s1 = s) ∧
    roots s1 = roots s ∧
    (∃ oh oh1, heap s !! h = Some oh ∧ heap s1 !! h = Some oh1 ∧
               payload oh1 = payload oh) ∧
    (∃ ot ot1, heap s !! t = Some ot ∧ heap s1 !! t = Some ot1 ∧
               payload ot1 = payload ot) ∧
    (malloc (heap s1) = NULL → vm_push_pair malloc fuel s = Fault) ∧
    (malloc (heap s1) ≠ NULL →
       ∃ s', vm_push_pair malloc fuel s = Done (s', malloc (heap s1)) ∧
         heap s' !! malloc (heap s1)
           = Some (mkObject false (first_object s1) (Pair h t)) ∧
         roots s' = base ++ [malloc (heap s1)] ∧
         stack_size s' = stack_size s - 1 ∧
         (∀ a, a ≠ malloc (heap s1) → heap s' !! a = heap s1 !! a)).
Proof.
  intros Hwf Hmalloc H2 Hfuel.
  destruct (collect_if_full_total fuel s Hwf Hfuel) as [s1 Hcol].
  destruct (collect_if_full_inv _ _ _ Hwf Hcol)
    as (Hwf1 & Hst & Hss & Hroots1 & _).
  pose proof Hwf as (_ & _ & _ & Hstk & _). pose proof Hstk as [Hsz Hlen].
  destruct (lookup_lt_is_Some_2 (stack s) (Z.to_nat (stack_size s - 1)))
    as [t Ht]; [lia|].
  destruct (lookup_lt_is_Some_2 (stack s) (Z.to_nat (stack_size s - 2)))
    as [h Hh]; [lia|].
  assert (Hat : stack_at s (stack_size s - 1) = Done t)
    by (apply stack_at_Done; split; [unfold STACK_MAX in *; lia|done]).
  assert (Hah : stack_at s (stack_size s - 2) = Done h)
    by (apply stack_at_Done; split; [unfold STACK_MAX in *; lia|done]).
  pose proof (roots_last_two s h t Hstk H2 Hah Hat) as Hroots.
  set (base := take (Z.to_nat (stack_size s - 2)) (stack s)) in *.
  exists s1, base, h, t.
  split; [done|]. split; [done|].
  split.
  { intros Heq. unfold collect_if_full in Hcol.
    by destruct (Z.eqb_spec (object_num s) (object_max s)). }
  split.
  { intros Hne. unfold collect_if_full in Hcol.
    destruct (Z.eqb_spec (object_num s) (object_max s)); [done|].
    by inversion Hcol. }
  split. { unfold roots. by rewrite Hst, Hss. }
  split.
  { apply Hroots1. rewrite Hroots. apply elem_of_app. right. left. }
  split.
  { apply Hroots1. rewrite Hroots. apply elem_of_app. right. right. left. }
  split.
  { intros Hn. apply (vm_push_pair_fault _ _ _ _ Hwf Hcol). by left. }
  intros Hnn.
  destruct (vm_push_pair_run _ _ _ _ Hwf Hcol Hnn H2)
    as (h' & t' & Hh' & Ht' & Hrun).
  assert (h' = h) by congruence. assert (t' = t) by congruence. subst h' t'.
  eexists. split; [exact Hrun|]. simpl.
  split; [apply lookup_insert_eq|].
  split.
  { pose proof (roots_push_pair s (malloc (heap s1)) Hstk H2) as Heq.
    unfold roots in *. simpl in *. exact Heq. }
  split; [done|].
  intros a Ha. by rewrite lookup_insert_ne.
Qed.

Lemma vm_push_pair_operands_witness :
  wf full_state ∧ malloc_sound bump ∧ 2 ≤ stack_size full_state ∧
  (size (heap full_state) < 64)%nat ∧
  object_num full_state = object_max full_state ∧
  ∃ s1 base h t,
    roots full_state = base ++ [h; t] ∧
    collect_if_full 64 full_state = Done s1 ∧
    (object_num full_state = object_max full_state →
     gc 64 full_state = Done s1) ∧
    (object_num full_state ≠ object_max full_state → s1 = full_state) ∧
    roots s1 = roots full_state ∧
    (∃ oh oh1, heap full_state !! h = Some oh ∧ heap s1 !! h = Some oh1 ∧
               payload oh1 = payload oh) ∧
    (∃ ot ot1, heap full_state !! t = Some ot ∧ heap s1 !! t = Some ot1 ∧
               payload ot1 = payload ot) ∧
    (bump (heap s1) = NULL → vm_push_pair bump 64 full_state = Fault) ∧
    (bump (heap s1) ≠ NULL →
       ∃ s', vm_push_pair bump 64 full_state = Done (s', bump (heap s1)) ∧
         heap s' !! bump (heap s1)
           = Some (mkObject false (first_object s1) (Pair h t)) ∧
         roots s' = base ++ [bump (heap s1)] ∧
         stack_size s' = stack_size full_state - 1 ∧
         (∀ a, a ≠ bump (heap s1) → heap s' !! a = heap s1 !! a)).
Proof.
  assert (Hr : reachable full_state).
  { unfold full_state. reachable_steps. }
  assert (Hwf : wf full_state) by exact (proj1 (reachable_inv _ Hr)).
  assert (H2 : 2 ≤ stack_size full_state) by (by vm_compute).
  assert (Hsz : (size (heap full_state) < 64)%nat) by (vm_compute; lia).
  split; [exact Hwf|]. split; [exact bump_sound|]. split; [exact H2|].
  split; [exact Hsz|]. split; [by vm_compute|].
  exact (vm_push_pair_operands bump 64 full_state Hwf bump_sound H2 Hsz).
Defined.

(** * Further properties of the code *)

(** ** One call of [gc_mark] *)

(** Every object a call marks is reached from the object visited along
    objects that were not marked. *)
Lemma gc_mark_white fuel : ∀ m a m',
  gc_mark fuel m a = Done m' →
  ∀ x, marked m' x → is_marked m x = false →
       is_marked m a = false ∧ rtc (white_edge m) a x.
Proof.
  induction fuel as [|fuel IH]; intros m a m' H; [done|].
  simpl in H. bind_inv H o Ha. apply deref_Done in Ha.
  destruct (mark o) eqn:Hm.
  { inversion H; subst m'. intros x Hx Hx'. unfold marked in Hx. congruence. }
  assert (Hwa : is_marked m a = false) by (unfold is_marked; by rewrite Ha).
  pose proof (mark_ext_set m a o Ha) as He1.
  set (m1 := <[a := with_mark true o]> m) in *.
  assert (Hnew1 : ∀ x, marked m1 x → is_marked m x = false → x = a).
  { intros x Hx Hx'. destruct (decide (x = a)); [done|].
    unfold marked, m1 in Hx. rewrite is_marked_insert_ne in Hx by done.
    congruence. }
  unfold type in H. destruct (payload o) as [v|h t] eqn:Hp.
  { inversion H; subst m'. intros x Hx Hx'.
    rewrite (Hnew1 x Hx Hx'). split; [done|constructor]. }
  bind_inv H o1 Ho1. apply deref_Done in Ho1.
  unfold m1 in Ho1. rewrite lookup_insert_eq in Ho1.
  inversion Ho1; subst o1; clear Ho1. simpl in H. rewrite Hp in H.
  bind_inv H m2 Hh. bind_inv H o2 Ho2. apply deref_Done in Ho2.
  destruct (gc_mark_spec _ _ _ _ Hh) as (He2 & _ & _).
  assert (He12 : mark_ext m m2) by (eapply mark_ext_trans; eauto).
  destruct (mark_ext_lookup _ _ _ _ He12 Ha) as (o2' & Ho2' & _ & Hp2 & _).
  assert (o2' = o2) by congruence. subst o2'.
  rewrite Hp2, Hp in H.
  assert (Hsub : ∀ m0, mark_ext m m0 → ∀ y z,
            rtc (white_edge m0) y z → rtc (white_edge m) y z).
  { intros m0 He0 y z Hr. induction Hr as [|y y' z [Hy Hw] _ IHr];
      [constructor|].
    eapply rtc_l; [|exact IHr]. split.
    - by apply (mark_ext_edge _ _ _ _ He0).
    - by apply (not_marked_mono _ _ _ He0). }
  intros x Hx Hx'. split; [done|].
  destruct (is_marked m2 x) eqn:Hx2.
  - destruct (is_marked m1 x) eqn:Hx1.
    + rewrite (Hnew1 x Hx1 Hx'). constructor.
    + destruct (IH _ _ _ Hh x Hx2 Hx1) as [Hwh Hr].
      eapply rtc_l; [|exact (Hsub m1 He1 _ _ Hr)]. split.
      * exists o, h, t. auto.
      * by apply (not_marked_mono _ _ _ He1).
  - destruct (IH _ _ _ H x Hx Hx2) as [Hwt Hr].
    eapply rtc_l; [|exact (Hsub m2 He12 _ _ Hr)]. split.
    + exists o, h, t. auto.
    + by apply (not_marked_mono _ _ _ He12).
Qed.

(** X1.  On a store without dangling references and with any marks
    already set, one call of [gc_mark] on a live object returns once its
    budget exceeds the number of objects; it changes nothing but marks, and
    afterwards an object is marked exactly when it was marked before or is
    reached from the object visited along objects that were not marked
    (the object visited included). *)
Theorem gc_mark_marks_white_paths (fuel : nat) (m : gmap N Object)
    (a : addr) :
  closed m → is_Some (m !! a) → (size m < fuel)%nat →
  ∃ m', gc_mark fuel m a = Done m' ∧ mark_ext m m' ∧
    ∀ x, marked m' x ↔
         marked m x ∨ (is_marked m a = false ∧ rtc (white_edge m) a x).
Proof.
  intros Hc Ha Hfuel.
  destruct (gc_mark_total fuel m a (dom m)) as [m' Hrun]; try done.
  { intros x Hx _. by apply elem_of_dom. }
  { by rewrite size_dom. }
  exists m'. split; [done|].
  destruct (gc_mark_spec _ _ _ _ Hrun) as (He & Hma & Hnew).
  split; [done|]. intros x. split.
  - intros Hx. destruct (is_marked m x) eqn:Hx'; [by left|]. right.
    by apply (gc_mark_white _ _ _ _ Hrun).
  - intros [Hx|[Hwa Hr]]; [by apply (mark_ext_marked _ _ _ He)|].
    assert (Hwalk : ∀ y z, rtc (white_edge m) y z →
              marked m' y → is_marked m y = false → marked m' z).
    { intros y z Hyz. induction Hyz as [|y y' z [Hy Hw] _ IHr]; [auto|].
      intros Hmy Hwy. apply IHr; [|done]. by apply (Hnew y Hmy Hwy). }
    by apply (Hwalk a x).
Qed.

Ltac chain_steps :=
  repeat (cbn [chain next];
          lazymatch goal with
          | |- _ ∧ _ =>
            split; [by vm_compute|]; split; [done|]; eexists;
            split; [by vm_compute|]
          | |- _ = _ => by vm_compute
          end).

Lemma gc_mark_marks_white_paths_witness :
  closed (heap test4_state) ∧ is_Some (heap test4_state !! 24%N) ∧
  (size (heap test4_state) < 64)%nat ∧
  ∃ m', gc_mark 64 (heap test4_state) 24%N = Done m' ∧
    mark_ext (heap test4_state) m' ∧
    ∀ x, marked m' x ↔
         marked (heap test4_state) x ∨
         (is_marked (heap test4_state) 24%N = false ∧
          rtc (white_edge (heap test4_state)) 24%N x).
Proof.
  assert (Hc : closed (heap test4_state)).
  { destruct (proj1 (reachable_inv _ reachable_test4_state))
      as (_ & _ & Hc & _). exact Hc. }
  assert (Ha : is_Some (heap test4_state !! 24%N)) by (vm_compute; eauto).
  assert (Hsz : (size (heap test4_state) < 64)%nat) by (vm_compute; lia).
  split; [exact Hc|]. split; [exact Ha|]. split; [exact Hsz|].
  exact (gc_mark_marks_white_paths 64 (heap test4_state) 24%N Hc Ha Hsz).
Defined.

(** ** The sweep phase on its own *)

(** X2.  [gc_sweep] on a chain with any marks set: it returns; the chain
    afterwards is the old chain with the unmarked objects taken out, in the
    same order; each unmarked object is freed and [object_num] goes down by
    their number; each marked object stays at its address with its payload
    and with the mark cleared; and objects outside the chain, the stack and
    the threshold are not touched. *)
Theorem gc_sweep_frees_unmarked (fuel : nat) (s : VM) (l : list addr) :
  chain (heap s) (first_object s) l → NoDup l →
  Z.of_nat (length l) ≤ object_num s < 2 ^ 64 →
  (length l < fuel)%nat →
  ∃ s', gc_sweep fuel s = Done s' ∧
    chain (heap s') (first_object s') (filter (λ a, marked (heap s) a) l) ∧
    object_num s' = object_num s -
      (Z.of_nat (length l) -
       Z.of_nat (length (filter (λ a, marked (heap s) a) l))) ∧
    (∀ a, a ∈ l → is_marked (heap s) a = false → heap s' !! a = None) ∧
    (∀ a o, a ∈ l → heap s !! a = Some o → mark o = true →
       ∃ o', heap s' !! a = Some o' ∧ payload o' = payload o ∧
             mark o' = false) ∧
    (∀ a, a ∉ l → heap s' !! a = heap s !! a) ∧
    object_max s' = object_max s ∧
    stack_size s' = stack_size s ∧ stack s' = stack s.
Proof.
  intros Hch Hnd Hnum Hfuel. unfold gc_sweep.
  destruct (gc_sweep_loop_spec l fuel s SlotFirst (first_object s))
    as (s' & p' & Hrun & Hload' & Hch' & Hnum' & Hmax' & Hss' & Hst' & _ &
        Hfree & Hkeep & Hother & _); try done.
  exists s'. split; [done|]. split.
  { inversion Hload' as [Hp']. by rewrite Hp'. }
  split; [done|]. split; [done|]. split; [done|].
  split; [|done]. intros a Ha. by apply Hother.
Qed.

Lemma gc_sweep_frees_unmarked_witness :
  chain (heap test4_marked) (first_object test4_marked)
    [48; 40; 32; 24; 16; 8]%N ∧
  filter (λ a, marked (heap test4_marked) a) [48; 40; 32; 24; 16; 8]%N
    = [48; 32; 24; 8]%N ∧
  ∃ s', gc_sweep 64 test4_marked = Done s' ∧
    chain (heap s') (first_object s')
      (filter (λ a, marked (heap test4_marked) a)
         [48; 40; 32; 24; 16; 8]%N) ∧
    object_num s' = object_num test4_marked -
      (Z.of_nat (length [48; 40; 32; 24; 16; 8]%N) -
       Z.of_nat (length (filter (λ a, marked (heap test4_marked) a)
                           [48; 40; 32; 24; 16; 8]%N))).
Proof.
  assert (Hch : chain (heap test4_marked) (first_object test4_marked)
                  [48; 40; 32; 24; 16; 8]%N).
  { chain_steps. }
  assert (Hnd : NoDup [48; 40; 32; 24; 16; 8]%N)
    by (apply (bool_decide_unpack _); by vm_compute).
  assert (Hnum : Z.of_nat (length [48; 40; 32; 24; 16; 8]%N)
                 ≤ object_num test4_marked < 2 ^ 64)
    by (split; by vm_compute).
  assert (Hfuel : (length [48; 40; 32; 24; 16; 8]%N < 64)%nat)
    by (simpl; lia).
  split; [exact Hch|]. split; [by vm_compute|].
  destruct (gc_sweep_frees_unmarked 64 test4_marked _ Hch Hnd Hnum Hfuel)
    as (s' & Hrun & Hch' & Hnum' & _).
  exists s'. split; [exact Hrun|]. split; [exact Hch'|exact Hnum'].
Defined.

(** ** The order of the chain *)

Lemma chain_unique m : ∀ l1 l2 p, chain m p l1 → chain m p l2 → l1 = l2.
Proof.
  induction l1 as [|a l1 IH]; intros [|b l2] p; simpl; try done.
  - intros -> (<- & Hnn & _). done.
  - intros (<- & Hnn & _) ->. done.
  - intros (-> & _ & o & Ho & H1) (-> & _ & o' & Ho' & H2).
    assert (o' = o) by congruence. subst o'. f_equal. by eapply IH.
Qed.

(** X3.  A collection cycle keeps the survivors in the order they had on
    the chain: the chain afterwards is the chain before with the reclaimed
    objects taken out. *)
Theorem gc_keeps_chain_order (fuel : nat) (s : VM) (l : list addr) :
  wf s → chained s l → (size (heap s) < fuel)%nat →
  ∃ s' l', gc fuel s = Done s' ∧ chained s' l' ∧ l' `sublist_of` l.
Proof.
  intros Hwf Hchd Hfuel.
  destruct (gc_spec fuel s Hwf Hfuel) as (s' & l' & Hgc & Hchd' & _).
  exists s', l'. split; [done|]. split; [done|].
  destruct (wf_count s l Hwf Hchd) as [Hlen Hbound].
  pose proof Hchd as (Hch & Hnd & Hall & Hnum).
  unfold gc in Hgc. destruct (Z.eqb_spec (object_num s) 0) as [H0|H0].
  { inversion Hgc; subst s'.
    by rewrite (chain_unique _ _ _ _ (proj1 Hchd') Hch). }
  destruct (gc_mark_all_spec fuel s Hwf Hfuel) as (m1 & Hmark & He & _).
  rewrite (bind_Done_eq _ _ _ Hmark) in Hgc. unfold gc_sweep in Hgc.
  destruct (gc_sweep_loop_spec l fuel (with_heap m1 s) SlotFirst
              (first_object s))
    as (s2 & p' & Hrun & Hload' & Hch' & _); try done.
  { simpl. eapply chain_ext; [|exact Hch]. intros a _.
    by apply mark_ext_next. }
  { lia. }
  { simpl. lia. }
  rewrite (bind_Done_eq _ _ _ Hrun) in Hgc. simpl in Hgc.
  inversion Hgc; subst s'. simpl in *.
  inversion Hload' as [Hp']. rewrite <- Hp' in Hch'.
  rewrite (chain_unique _ _ _ _ (proj1 Hchd') Hch').
  apply sublist_filter.
Qed.

Lemma gc_keeps_chain_order_witness :
  wf test4_state ∧ chained test4_state [48; 40; 32; 24; 16; 8]%N ∧
  (size (heap test4_state) < 64)%nat ∧
  ∃ s' l', gc 64 test4_state = Done s' ∧ chained s' l' ∧
           l' `sublist_of` [48; 40; 32; 24; 16; 8]%N.
Proof.
  assert (Hwf : wf test4_state)
    by exact (proj1 (reachable_inv _ reachable_test4_state)).
  assert (Hchd : chained test4_state [48; 40; 32; 24; 16; 8]%N).
  { destruct Hwf as ((l & Hchd) & _).
    assert (Hch : chain (heap test4_state) (first_object test4_state)
                    [48; 40; 32; 24; 16; 8]%N).
    { chain_steps. }
    by rewrite <- (chain_unique _ _ _ _ (proj1 Hchd) Hch). }
  assert (Hsz : (size (heap test4_state) < 64)%nat) by (vm_compute; lia).
  split; [exact Hwf|]. split; [exact Hchd|]. split; [exact Hsz|].
  exact (gc_keeps_chain_order 64 test4_state _ Hwf Hchd Hsz).
Defined.

(** ** Allocation seen from the caller *)

Lemma vm_push_int_result_wf malloc fuel s v s1 :
  wf s → malloc_sound malloc → collect_if_full fuel s = Done s1 →
  malloc (heap s1) ≠ NULL → stack_size s < STACK_MAX →
  heap s1 !! malloc (heap s1) = None ∧
  wf (mkVM (malloc (heap s1)) (object_num s1 + 1) (object_max s1)
        (stack_size s + 1)
        (<[Z.to_nat (stack_size s) := malloc (heap s1)]> (stack s))
        (<[malloc (heap s1) := mkObject false (first_object s1) (Int v)]>
           (heap s1))).
Proof.
  intros Hwf Hmalloc Hcol Hnn Hlt.
  destruct (collect_if_full_inv _ _ _ Hwf Hcol)
    as (Hwf1 & Hst & Hss & Hroots1 & _).
  pose proof Hwf as (_ & _ & _ & Hstk & _).
  destruct (Hmalloc (heap s1)) as [|[Hfresh Hpl]]; [done|].
  split; [done|].
  eapply (wf_alloc s1 _ (malloc (heap s1)) (Int v)); try done.
  - destruct Hstk as [Hsz Hlen]. split; simpl; [lia|].
    by rewrite length_insert.
  - intros r Hr.
    change (r ∈ roots (with_stack_size (stack_size s + 1)
              (with_stack (<[Z.to_nat (stack_size s) := malloc (heap s1)]>
                             (stack s)) s))) in Hr.
    rewrite (proj2 (vm_push_spec s _ Hstk Hlt)) in Hr.
    apply elem_of_app in Hr as [Hr| ->%list_elem_of_singleton]; [|by left].
    right. destruct (Hroots1 r Hr) as (o & o1 & _ & Ho1 & _). eauto.
Qed.

Lemma vm_push_pair_result_wf malloc fuel s s1 h t :
  wf s → malloc_sound malloc → collect_if_full fuel s = Done s1 →
  malloc (heap s1) ≠ NULL → 2 ≤ stack_size s →
  stack_at s (stack_size s - 2) = Done h →
  stack_at s (stack_size s - 1) = Done t →
  heap s1 !! malloc (heap s1) = None ∧
  is_Some (heap s1 !! h) ∧ is_Some (heap s1 !! t) ∧
  wf (mkVM (malloc (heap s1)) (object_num s1 + 1) (object_max s1)
        (stack_size s - 1)
        (<[Z.to_nat (stack_size s - 2) := malloc (heap s1)]> (stack s))
        (<[malloc (heap s1) := mkObject false (first_object s1) (Pair h t)]>
           (heap s1))).
Proof.
  intros Hwf Hmalloc Hcol Hnn H2 Hh Ht.
  destruct (collect_if_full_inv _ _ _ Hwf Hcol)
    as (Hwf1 & Hst & Hss & Hroots1 & _).
  pose proof Hwf as (_ & _ & _ & Hstk & _).
  destruct (Hmalloc (heap s1)) as [|[Hfresh Hpl]]; [done|].
  assert (Hin : ∀ i r, 0 ≤ i < stack_size s → stack_at s i = Done r →
            is_Some (heap s1 !! r)).
  { intros i r Hi Hr.
    destruct (Hroots1 r) as (o & o1 & _ & Ho1 & _); [|eauto].
    apply elem_of_roots; [done|]. eauto. }
  assert (Hsh : is_Some (heap s1 !! h)) by (eapply Hin; eauto; lia).
  assert (Hs_t : is_Some (heap s1 !! t)) by (eapply Hin; eauto; lia).
  split; [done|]. split; [done|]. split; [done|].
  eapply (wf_alloc s1 _ (malloc (heap s1)) (Pair h t)); try done.
  - by intros h' t' [= <- <-].
  - destruct Hstk as [Hsz Hlen]. split; simpl; [lia|].
    by rewrite length_insert.
  - intros r Hr.
    change (r ∈ take (Z.to_nat (stack_size s - 1))
              (<[Z.to_nat (stack_size s - 2) := malloc (heap s1)]>
                 (stack s))) in Hr.
    pose proof (roots_push_pair s (malloc (heap s1)) Hstk H2) as Heq.
    unfold roots in Heq. simpl in Heq. rewrite Heq in Hr.
    apply elem_of_app in Hr as [Hr| ->%list_elem_of_singleton]; [|by left].
    right. apply (elem_of_take_roots s) in Hr; [|lia].
    destruct (Hroots1 r Hr) as (o & o1 & _ & Ho1 & _). eauto.
Qed.

Lemma vm_push_int_inv malloc fuel s v s' p :
  wf s → vm_push_int malloc fuel s v = Done (s', p) →
  ∃ s1, collect_if_full fuel s = Done s1 ∧
    p = malloc (heap s1) ∧ p ≠ NULL ∧ stack_size s < STACK_MAX ∧
    s' = mkVM p (object_num s1 + 1) (object_max s1) (stack_size s + 1)
           (<[Z.to_nat (stack_size s) := p]> (stack s))
           (<[p := mkObject false (first_object s1) (Int v)]> (heap s1)).
Proof.
  intros Hwf H.
  assert (∃ s1, collect_if_full fuel s = Done s1) as [s1 Hcol].
  { unfold vm_push_int in H. bind_inv H x Hx. destruct x as [s2 q].
    destruct (new_object_inv _ _ _ _ _ _ Hx) as (s1 & ? & _). eauto. }
  exists s1. split; [done|].
  rewrite (vm_push_int_run _ _ _ _ _ Hwf Hcol) in H.
  destruct (N.eqb_spec (malloc (heap s1)) NULL) as [|Hnn]; [done|].
  destruct (Z.ltb_spec (stack_size s) STACK_MAX) as [Hlt|]; [|done].
  inversion H; subst s' p. done.
Qed.

Lemma vm_push_pair_inv malloc fuel s s' p :
  wf s → vm_push_pair malloc fuel s = Done (s', p) →
  ∃ s1 h t, collect_if_full fuel s = Done s1 ∧
    p = malloc (heap s1) ∧ p ≠ NULL ∧ 2 ≤ stack_size s ∧
    stack_at s (stack_size s - 2) = Done h ∧
    stack_at s (stack_size s - 1) = Done t ∧
    s' = mkVM p (object_num s1 + 1) (object_max s1) (stack_size s - 1)
           (<[Z.to_nat (stack_size s - 2) := p]> (stack s))
           (<[p := mkObject false (first_object s1) (Pair h t)]> (heap s1)).
Proof.
  intros Hwf H.
  assert (∃ s1, collect_if_full fuel s = Done s1) as [s1 Hcol].
  { unfold vm_push_pair in H. bind_inv H x Hx. destruct x as [s2 q].
    destruct (new_object_inv _ _ _ _ _ _ Hx) as (s1 & ? & _). eauto. }
  assert (Hnn : malloc (heap s1) ≠ NULL).
  { intros Hn. rewrite (vm_push_pair_fault _ _ _ _ Hwf Hcol) in H; auto.
    done. }
  assert (H2 : 2 ≤ stack_size s).
  { destruct (Z.le_gt_cases 2 (stack_size s)); [done|].
    rewrite (vm_push_pair_fault _ _ _ _ Hwf Hcol) in H; [done|]. right. lia. }
  destruct (vm_push_pair_run _ _ _ _ Hwf Hcol Hnn H2)
    as (h & t & Hh & Ht & Hrun).
  rewrite Hrun in H. inversion H; subst s' p.
  exists s1, h, t. done.
Qed.

(** X4.  [vm_push_int] on a well-formed state first runs the trigger
    check, which leaves the state [s1] ([s] itself when the count is not at
    the threshold, so that nothing is freed then).  It aborts exactly when
    the allocator fails or the stack is full.  Otherwise it returns a new
    object at an address that was free: an unmarked integer holding the
    value, linked in front of the chain and pushed on top of the Root Set;
    the rest of the store is as the trigger check left it, the count is one
    more, and the state is again well-formed. *)
Theorem vm_push_int_allocates (malloc : gmap N Object → addr) (fuel : nat)
    (s : VM) (v : Z) :
  wf s → malloc_sound malloc → (size (heap s) < fuel)%nat →
  ∃ s1, collect_if_full fuel s = Done s1 ∧
    (object_num s ≠ object_max s → s1 = s) ∧
    (vm_push_int malloc fuel s v = Fault ↔
     malloc (heap s1) = NULL ∨ stack_size s = STACK_MAX) ∧
    (malloc (heap s1) ≠ NULL → stack_size s < STACK_MAX →
     ∃ s', vm_push_int malloc fuel s v = Done (s', malloc (heap s1)) ∧
       heap s1 !! malloc (heap s1) = None ∧
       heap s' = <[malloc (heap s1) :=
                     mkObject false (first_object s1) (Int v)]> (heap s1) ∧
       first_object s' = malloc (heap s1) ∧
       object_num s' = object_num s1 + 1 ∧
       object_max s' = object_max s1 ∧
       roots s' = roots s ++ [malloc (heap s1)] ∧
       wf s').
Proof.
  intros Hwf Hmalloc Hfuel.
  destruct (collect_if_full_total fuel s Hwf Hfuel) as [s1 Hcol].
  pose proof Hwf as (_ & _ & _ & Hstk & _). pose proof Hstk as [Hsz Hlen].
  exists s1. split; [done|]. split.
  { intros Hne. unfold collect_if_full in Hcol.
    destruct (Z.eqb_spec (object_num s) (object_max s)); [done|].
    by inversion Hcol. }
  rewrite (vm_push_int_run malloc _ _ v _ Hwf Hcol).
  split.
  { destruct (N.eqb_spec (malloc (heap s1)) NULL) as [Hn|Hnn];
      [split; auto|].
    destruct (Z.ltb_spec (stack_size s) STACK_MAX) as [Hlt|Hge].
    - split; [done|]. intros [?|?]; [done|lia].
    - split; [|done]. intros _. right. lia. }
  intros Hnn Hlt.
  destruct (N.eqb_spec (malloc (heap s1)) NULL) as [|_]; [done|].
  destruct (Z.ltb_spec (stack_size s) STACK_MAX) as [_|]; [|lia].
  destruct (vm_push_int_result_wf malloc fuel s v s1) as [Hfresh Hwf'];
    try done.
  eexists. split; [done|]. simpl. split; [done|].
  split; [done|]. split; [done|]. split; [done|]. split; [done|].
  split; [|done]. exact (proj2 (vm_push_spec s _ Hstk Hlt)).
Qed.

Lemma vm_push_int_allocates_witness :
  wf full_state ∧ malloc_sound bump ∧ (size (heap full_state) < 64)%nat ∧
  ∃ s1, collect_if_full 64 full_state = Done s1 ∧
    (vm_push_int bump 64 full_state 9 = Fault ↔
     bump (heap s1) = NULL ∨ stack_size full_state = STACK_MAX).
Proof.
  assert (Hr : reachable full_state).
  { unfold full_state. reachable_steps. }
  assert (Hwf : wf full_state) by exact (proj1 (reachable_inv _ Hr)).
  assert (Hsz : (size (heap full_state) < 64)%nat) by (vm_compute; lia).
  split; [exact Hwf|]. split; [exact bump_sound|]. split; [exact Hsz|].
  destruct (vm_push_int_allocates bump 64 full_state 9 Hwf bump_sound Hsz)
    as (s1 & Hcol & _ & Hiff & _).
  exists s1. split; [exact Hcol|exact Hiff].
Defined.

(** X5.  [vm_push_pair] on a well-formed state aborts exactly when the
    allocator fails or the Root Set holds fewer than two entries. *)
Theorem vm_push_pair_fatal_iff (malloc : gmap N Object → addr) (fuel : nat)
    (s : VM) :
  wf s → (size (heap s) < fuel)%nat →
  ∃ s1, collect_if_full fuel s = Done s1 ∧
    (vm_push_pair malloc fuel s = Fault ↔
     malloc (heap s1) = NULL ∨ stack_size s < 2).
Proof.
  intros Hwf Hfuel.
  destruct (collect_if_full_total fuel s Hwf Hfuel) as [s1 Hcol].
  exists s1. split; [done|]. split.
  - intros Hf.
    destruct (N.eq_dec (malloc (heap s1)) NULL) as [|Hnn]; [by left|].
    destruct (Z.lt_ge_cases (stack_size s) 2) as [|H2]; [by right|].
    destruct (vm_push_pair_run malloc _ _ _ Hwf Hcol Hnn H2)
      as (h & t & _ & _ & Hrun).
    congruence.
  - by apply vm_push_pair_fault.
Qed.

Lemma vm_push_pair_fatal_iff_witness :
  wf one_int_state ∧ (size (heap one_int_state) < 64)%nat ∧
  stack_size one_int_state < 2 ∧
  vm_push_pair bump 64 one_int_state = Fault.
Proof.
  assert (Hwf : wf one_int_state)
    by exact (proj1 (reachable_inv _ reachable_one_int_state)).
  assert (Hsz : (size (heap one_int_state) < 64)%nat) by (vm_compute; lia).
  assert (Hlt : stack_size one_int_state < 2) by (by vm_compute).
  split; [exact Hwf|]. split; [exact Hsz|]. split; [exact Hlt|].
  destruct (vm_push_pair_fatal_iff bump 64 one_int_state Hwf Hsz)
    as (s1 & _ & Hiff).
  apply Hiff. right. exact Hlt.
Defined.

(** ** Allocation followed by a collection cycle *)

Lemma reach_insert_fresh_1 m p o x y :
  m !! p = None → closed m → is_Some (m !! x) →
  reach (<[p := o]> m) x y → reach m x y ∧ is_Some (m !! y).
Proof.
  intros Hp Hc Hx Hr. induction Hr as [|x y z Hxy _ IH]; [by split; [constructor|]|].
  assert (Hne : x ≠ p) by (intros ->; rewrite Hp in Hx; by destruct Hx).
  assert (Hxy' : edge m x y).
  { destruct Hxy as (ox & h & t & Hox & Hrest).
    rewrite lookup_insert_ne in Hox by done. exists ox, h, t. auto. }
  destruct IH as [Hr Hz]; [by apply (Hc x)|].
  split; [|done]. by eapply rtc_l.
Qed.

Lemma reach_insert_fresh_2 m p o x y :
  m !! p = None → reach m x y → reach (<[p := o]> m) x y.
Proof.
  intros Hp Hr. induction Hr as [|x y z Hxy _ IH]; [constructor|].
  eapply rtc_l; [|exact IH].
  destruct Hxy as (ox & h & t & Hox & Hrest). exists ox, h, t.
  split; [|done]. rewrite lookup_insert_ne; [done|]. intros <-. congruence.
Qed.

Lemma collect_if_full_rooted fuel s s1 :
  wf s → collect_if_full fuel s = Done s1 →
  ∀ a, rooted s a → rooted s1 a.
Proof.
  intros Hwf. unfold collect_if_full.
  destruct (Z.eqb_spec (object_num s) (object_max s)); [|by intros [= <-]].
  intros Hgc a Ha. pose proof (gc_collected_inv _ _ _ Hwf Hgc) as Hcol.
  pose proof Hcol as (_ & Hst & Hss & _).
  pose proof Ha as (r & Hr & Hreach). exists r. split.
  - unfold roots in *. by rewrite Hst, Hss.
  - apply (collected_reach s s1); try done.
    exists r. split; [done|constructor].
Qed.

(** X6.  An integer that [vm_push_int] has just pushed survives a
    collection cycle: after [gc] it is still in the store at the same
    address, holding the same value, and still on top of the Root Set. *)
Theorem pushed_int_survives_gc (malloc : gmap N Object → addr)
    (fuel fuel' : nat) (s s1 : VM) (v : Z) (p : addr) :
  wf s → malloc_sound malloc →
  vm_push_int malloc fuel s v = Done (s1, p) →
  (size (heap s1) < fuel')%nat →
  ∃ s2 o, gc fuel' s1 = Done s2 ∧
    heap s2 !! p = Some o ∧ payload o = Int v ∧
    roots s2 = roots s ++ [p].
Proof.
  intros Hwf Hmalloc Hop Hfuel.
  destruct (vm_push_int_inv _ _ _ _ _ _ Hwf Hop)
    as (sc & Hcol & -> & Hnn & Hlt & ->).
  destruct (vm_push_int_result_wf malloc fuel s v sc) as [Hfresh Hwf1];
    try done.
  pose proof Hwf as (_ & _ & _ & Hstk & _).
  set (s1 := mkVM _ _ _ _ _ _) in *.
  assert (Hroots : roots s1 = roots s ++ [malloc (heap sc)])
    by exact (proj2 (vm_push_spec s _ Hstk Hlt)).
  destruct (gc_spec fuel' s1 Hwf1 Hfuel)
    as (s2 & l' & Hgc & (_ & _ & Hall & _) & Hl' & Hst & Hss & Hpay & _).
  assert (Hp : is_Some (heap s2 !! malloc (heap sc))).
  { apply Hall, Hl'. exists (malloc (heap sc)). split; [|constructor].
    rewrite Hroots. apply elem_of_app. right. left. }
  destruct Hp as [o Ho]. exists s2, o. split; [done|]. split; [done|].
  split.
  - destruct (Hpay _ _ Ho) as (o1 & Ho1 & Hp1 & _).
    unfold s1 in Ho1. simpl in Ho1. rewrite lookup_insert_eq in Ho1.
    inversion Ho1; subst o1. done.
  - rewrite <- Hroots. unfold roots. by rewrite Hst, Hss.
Qed.

Lemma pushed_int_survives_gc_witness :
  wf test3_state ∧ malloc_sound bump ∧
  vm_push_int bump 64 test3_state 5
    = Done (run_push_int 5 test3_state, 64%N) ∧
  (size (heap (run_push_int 5 test3_state)) < 64)%nat ∧
  ∃ s2 o, gc 64 (run_push_int 5 test3_state) = Done s2 ∧
    heap s2 !! 64%N = Some o ∧ payload o = Int 5 ∧
    roots s2 = roots test3_state ++ [64%N].
Proof.
  assert (Hwf : wf test3_state)
    by exact (proj1 (reachable_inv _ reachable_test3_state)).
  assert (Hop : vm_push_int bump 64 test3_state 5
                = Done (run_push_int 5 test3_state, 64%N)) by (by vm_compute).
  assert (Hsz : (size (heap (run_push_int 5 test3_state)) < 64)%nat)
    by (vm_compute; lia).
  split; [exact Hwf|]. split; [exact bump_sound|]. split; [exact Hop|].
  split; [exact Hsz|].
  exact (pushed_int_survives_gc bump 64 64 test3_state _ 5 64%N
           Hwf bump_sound Hop Hsz).
Defined.

(** X7.  An integer pushed and popped again is garbage: [vm_pop] returns
    the object just pushed and restores the Root Set, and the next
    collection cycle frees that object, while every object that was
    reachable from the Root Set before the push is still in the store. *)
Theorem pushed_popped_int_reclaimed (malloc : gmap N Object → addr)
    (fuel fuel' : nat) (s s1 : VM) (v : Z) (p : addr) :
  wf s → malloc_sound malloc →
  vm_push_int malloc fuel s v = Done (s1, p) →
  (size (heap s1) < fuel')%nat →
  ∃ s2 s3, vm_pop s1 = Done (s2, p) ∧ roots s2 = roots s ∧
    gc fuel' s2 = Done s3 ∧ heap s3 !! p = None ∧
    ∀ a, rooted s a → is_Some (heap s3 !! a).
Proof.
  intros Hwf Hmalloc Hop Hfuel.
  destruct (vm_push_int_inv _ _ _ _ _ _ Hwf Hop)
    as (sc & Hcol & -> & Hnn & Hlt & ->).
  destruct (vm_push_int_result_wf malloc fuel s v sc) as [Hfresh Hwf1];
    try done.
  destruct (collect_if_full_inv _ _ _ Hwf Hcol)
    as (Hwfc & Hst & Hss & Hrootsc & _).
  pose proof Hwf as (_ & _ & _ & Hstk & _). pose proof Hstk as [Hsz Hlen].
  set (p := malloc (heap sc)) in *.
  set (s1 := mkVM _ _ _ _ _ _) in *.
  set (s2 := with_stack_size (stack_size s1 - 1) s1).
  assert (Hpop : vm_pop s1 = Done (s2, p)).
  { apply vm_pop_run; simpl; [lia|].
    replace (stack_size s + 1 - 1) with (stack_size s) by lia.
    apply list_lookup_insert_eq. lia. }
  assert (Hroots2 : roots s2 = roots s).
  { unfold roots. simpl.
    replace (stack_size s + 1 - 1) with (stack_size s) by lia.
    by rewrite take_insert_ge. }
  assert (Hwf2 : wf s2).
  { apply (wf_same_heap s1); try done.
    - split; simpl; [lia|]. by rewrite length_insert.
    - intros r Hr. rewrite Hroots2 in Hr.
      destruct (Hrootsc r Hr) as (o & o1 & _ & Ho1 & _).
      simpl. rewrite lookup_insert_is_Some. destruct (decide (p = r)); eauto. }
  destruct (gc_spec fuel' s2 Hwf2 Hfuel)
    as (s3 & l' & Hgc & (_ & _ & Hall & _) & Hl' & _).
  exists s2, s3. split; [done|]. split; [done|]. split; [done|].
  assert (Hrc : ∀ r, r ∈ roots s → is_Some (heap sc !! r)).
  { intros r Hr. destruct (Hrootsc r Hr) as (o & o1 & _ & Ho1 & _). eauto. }
  split.
  - apply eq_None_not_Some. intros (r & Hr & Hreach)%Hall%Hl'.
    rewrite Hroots2 in Hr. simpl in Hreach.
    destruct (reach_insert_fresh_1 (heap sc) p _ r p Hfresh
                ltac:(apply Hwfc) (Hrc r Hr) Hreach) as [_ Hp].
    rewrite Hfresh in Hp. by destruct Hp.
  - intros a Ha. apply Hall, Hl'.
    destruct (collect_if_full_rooted _ _ _ Hwf Hcol a Ha)
      as (r & Hr & Hreach).
    exists r. split.
    + rewrite Hroots2. unfold roots in *. by rewrite <- Hst, <- Hss.
    + simpl. by apply reach_insert_fresh_2.
Qed.

Lemma pushed_popped_int_reclaimed_witness :
  wf test3_state ∧ malloc_sound bump ∧
  vm_push_int bump 64 test3_state 5
    = Done (run_push_int 5 test3_state, 64%N) ∧
  (size (heap (run_push_int 5 test3_state)) < 64)%nat ∧
  ∃ s2 s3, vm_pop (run_push_int 5 test3_state) = Done (s2, 64%N) ∧
    roots s2 = roots test3_state ∧
    gc 64 s2 = Done s3 ∧ heap s3 !! 64%N = None ∧
    ∀ a, rooted test3_state a → is_Some (heap s3 !! a).
Proof.
  assert (Hwf : wf test3_state)
    by exact (proj1 (reachable_inv _ reachable_test3_state)).
  assert (Hop : vm_push_int bump 64 test3_state 5
                = Done (run_push_int 5 test3_state, 64%N)) by (by vm_compute).
  assert (Hsz : (size (heap (run_push_int 5 test3_state)) < 64)%nat)
    by (vm_compute; lia).
  split; [exact Hwf|]. split; [exact bump_sound|]. split; [exact Hop|].
  split; [exact Hsz|].
  exact (pushed_popped_int_reclaimed bump 64 64 test3_state _ 5 64%N
           Hwf bump_sound Hop Hsz).
Defined.

(** X8.  A pair keeps its operands alive.  After [vm_push_pair] the two
    operands [h] and [t] are no longer on the Root Set, which holds the
    pair in their place; a collection cycle then keeps the pair, with
    head [h] and tail [t], and keeps both operands with the payloads they
    had. *)
Theorem pair_keeps_operands_alive (malloc : gmap N Object → addr)
    (fuel fuel' : nat) (s s1 : VM) (p : addr) :
  wf s → malloc_sound malloc →
  vm_push_pair malloc fuel s = Done (s1, p) →
  (size (heap s1) < fuel')%nat →
  ∃ s2 base h t oh ot,
    roots s = base ++ [h; t] ∧ roots s1 = base ++ [p] ∧
    heap s !! h = Some oh ∧ heap s !! t = Some ot ∧
    gc fuel' s1 = Done s2 ∧ roots s2 = base ++ [p] ∧
    (∃ o, heap s2 !! p = Some o ∧ payload o = Pair h t) ∧
    (∃ o, heap s2 !! h = Some o ∧ payload o = payload oh) ∧
    (∃ o, heap s2 !! t = Some o ∧ payload o = payload ot).
Proof.
  intros Hwf Hmalloc Hop Hfuel.
  destruct (vm_push_pair_inv _ _ _ _ _ Hwf Hop)
    as (sc & h & t & Hcol & -> & Hnn & H2 & Hh & Ht & ->).
  destruct (vm_push_pair_result_wf malloc fuel s sc h t)
    as (Hfresh & Hsh & Hs_t & Hwf1); try done.
  destruct (collect_if_full_inv _ _ _ Hwf Hcol)
    as (Hwfc & Hst & Hss & Hrootsc & _).
  pose proof Hwf as (_ & _ & _ & Hstk & _).
  pose proof (roots_last_two s h t Hstk H2 Hh Ht) as Hroots.
  set (base := take (Z.to_nat (stack_size s - 2)) (stack s)) in *.
  set (p := malloc (heap sc)) in *.
  set (s1 := mkVM _ _ _ _ _ _) in *.
  assert (Hroots1 : roots s1 = base ++ [p]).
  { pose proof (roots_push_pair s p Hstk H2) as Heq.
    unfold roots in *. simpl in *. exact Heq. }
  assert (Hhr : h ∈ roots s)
    by (rewrite Hroots; apply elem_of_app; right; left).
  assert (Htr : t ∈ roots s)
    by (rewrite Hroots; apply elem_of_app; right; right; left).
  destruct (Hrootsc h Hhr) as (oh & oh1 & Hoh & Hoh1 & Hph).
  destruct (Hrootsc t Htr) as (ot & ot1 & Hot & Hot1 & Hpt).
  destruct (gc_spec fuel' s1 Hwf1 Hfuel)
    as (s2 & l' & Hgc & (_ & _ & Hall & _) & Hl' & Hst2 & Hss2 & Hpay & _).
  assert (Hp1 : heap s1 !! p = Some (mkObject false (first_object sc)
                                       (Pair h t)))
    by (simpl; apply lookup_insert_eq).
  assert (Hne : ∀ x, is_Some (heap sc !! x) → heap s1 !! x = heap sc !! x).
  { intros x Hx. simpl. rewrite lookup_insert_ne; [done|].
    intros <-. rewrite Hfresh in Hx. by destruct Hx. }
  assert (Hrp : rooted s1 p).
  { exists p. split; [|constructor]. rewrite Hroots1.
    apply elem_of_app. right. left. }
  assert (Hsurv : ∀ x o1, (x = h ∨ x = t) → heap sc !! x = Some o1 →
            ∃ o, heap s2 !! x = Some o ∧ payload o = payload o1).
  { intros x o1 Hx Ho1.
    assert (Hrx : rooted s1 x).
    { destruct Hrp as (r & Hr & Hreach). exists r. split; [done|].
      eapply rtc_r; [exact Hreach|]. eexists _, h, t. split; [exact Hp1|].
      split; [done|]. done. }
    apply Hl', Hall in Hrx as [o Ho]. exists o. split; [done|].
    destruct (Hpay x o Ho) as (o1' & Ho1' & Hp' & _).
    rewrite Hne in Ho1' by eauto. congruence. }
  exists s2, base, h, t, oh, ot.
  split; [done|]. split; [done|]. split; [done|]. split; [done|].
  split; [done|]. split.
  { rewrite <- Hroots1. unfold roots. by rewrite Hst2, Hss2. }
  split.
  { apply Hl', Hall in Hrp as [o Ho]. exists o. split; [done|].
    destruct (Hpay p o Ho) as (o1 & Ho1 & Hp' & _).
    rewrite Hp1 in Ho1. inversion Ho1; subst o1. done. }
  split.
  - destruct (Hsurv h oh1) as (o & Ho & Hp'); auto.
    exists o. split; [done|]. congruence.
  - destruct (Hsurv t ot1) as (o & Ho & Hp'); auto.
    exists o. split; [done|]. congruence.
Qed.

Lemma pair_keeps_operands_alive_witness :
  wf full_state ∧ malloc_sound bump ∧
  vm_push_pair bump 64 full_state = Done (run_push_pair full_state, 24%N) ∧
  (size (heap (run_push_pair full_state)) < 64)%nat ∧
  ∃ s2 base h t oh ot,
    roots full_state = base ++ [h; t] ∧
    roots (run_push_pair full_state) = base ++ [24%N] ∧
    heap full_state !! h = Some oh ∧ heap full_state !! t = Some ot ∧
    gc 64 (run_push_pair full_state) = Done s2 ∧
    roots s2 = base ++ [24%N] ∧
    (∃ o, heap s2 !! 24%N = Some o ∧ payload o = Pair h t) ∧
    (∃ o, heap s2 !! h = Some o ∧ payload o = payload oh) ∧
    (∃ o, heap s2 !! t = Some o ∧ payload o = payload ot).
Proof.
  assert (Hr : reachable full_state).
  { unfold full_state. reachable_steps. }
  assert (Hwf : wf full_state) by exact (proj1 (reachable_inv _ Hr)).
  assert (Hop : vm_push_pair bump 64 full_state
                = Done (run_push_pair full_state, 24%N)) by (by vm_compute).
  assert (Hsz : (size (heap (run_push_pair full_state)) < 64)%nat)
    by (vm_compute; lia).
  split; [exact Hwf|]. split; [exact bump_sound|]. split; [exact Hop|].
  split; [exact Hsz|].
  exact (pair_keeps_operands_alive bump 64 64 full_state _ 24%N
           Hwf bump_sound Hop Hsz).
Defined.

(** ** After a collection cycle *)

(** X9.  A collection cycle leaves no garbage behind: in the state it
    returns, an address holds an object exactly when it is reachable from
    the Root Set of that state. *)
Theorem gc_leaves_no_garbage (fuel : nat) (s : VM) :
  wf s → (size (heap s) < fuel)%nat →
  ∃ s', gc fuel s = Done s' ∧
    ∀ a, is_Some (heap s' !! a) ↔ rooted s' a.
Proof.
  intros Hwf Hfuel.
  destruct (gc_collected fuel s Hwf Hfuel) as (s' & Hgc & Hcol).
  exists s'. split; [done|]. intros a. split.
  - by apply (collected_all_rooted s s').
  - apply rooted_is_Some, Hcol.
Qed.

Lemma gc_leaves_no_garbage_witness :
  wf test4_state ∧ (size (heap test4_state) < 64)%nat ∧
  ∃ s', gc 64 test4_state = Done s' ∧
    ∀ a, is_Some (heap s' !! a) ↔ rooted s' a.
Proof.
  assert (Hwf : wf test4_state)
    by exact (proj1 (reachable_inv _ reachable_test4_state)).
  assert (Hsz : (size (heap test4_state) < 64)%nat) by (vm_compute; lia).
  split; [exact Hwf|]. split; [exact Hsz|].
  exact (gc_leaves_no_garbage 64 test4_state Hwf Hsz).
Defined.

(** X10.  A collection cycle always makes room.  From a state the
    operations can produce, [gc] returns with the count strictly below the
    threshold, so the trigger check of the allocation that follows does
    nothing: [vm_push_int] then frees no object and only adds the new
    one. *)
Theorem no_collection_right_after_gc (malloc : gmap N Object → addr)
    (fuel fuel' : nat) (s : VM) (v : Z) :
  reachable s → (size (heap s) < fuel)%nat →
  ∃ s1, gc fuel s = Done s1 ∧
    object_num s1 < object_max s1 ∧
    collect_if_full fuel' s1 = Done s1 ∧
    ∀ s2 p, vm_push_int malloc fuel' s1 v = Done (s2, p) →
      heap s2 = <[p := mkObject false (first_object s1) (Int v)]> (heap s1).
Proof.
  intros Hs Hfuel. destruct (reachable_inv s Hs) as [Hwf Hthr].
  destruct (gc_collected fuel s Hwf Hfuel) as (s1 & Hgc & Hcol).
  destruct (collected_threshold s s1 Hwf Hcol Hthr) as [Hthr1 Hstrict].
  assert (Hlt : object_num s1 < object_max s1).
  { destruct (Z.eq_dec (object_num s) 0) as [H0|Hne]; [|by apply Hstrict].
    unfold gc in Hgc. rewrite H0 in Hgc. simpl in Hgc.
    inversion Hgc; subst s1. destruct Hthr as (? & ? & ?). lia. }
  assert (Hnone : collect_if_full fuel' s1 = Done s1).
  { unfold collect_if_full.
    destruct (Z.eqb_spec (object_num s1) (object_max s1)); [lia|done]. }
  exists s1. split; [done|]. split; [done|]. split; [done|].
  intros s2 p Hop.
  assert (Hwf1 : wf s1) by apply Hcol.
  destruct (vm_push_int_inv _ _ _ _ _ _ Hwf1 Hop)
    as (sc & Hcol' & -> & _ & _ & ->).
  rewrite Hnone in Hcol'. inversion Hcol'; subst sc. done.
Qed.

Lemma no_collection_right_after_gc_witness :
  reachable full_state ∧ (size (heap full_state) < 64)%nat ∧
  object_num full_state = object_max full_state ∧
  ∃ s1, gc 64 full_state = Done s1 ∧
    object_num s1 < object_max s1 ∧
    collect_if_full 0 s1 = Done s1.
Proof.
  assert (Hr : reachable full_state).
  { unfold full_state. reachable_steps. }
  assert (Hsz : (size (heap full_state) < 64)%nat) by (vm_compute; lia).
  split; [exact Hr|]. split; [exact Hsz|]. split; [by vm_compute|].
  destruct (no_collection_right_after_gc bump 64 0 full_state 0 Hr Hsz)
    as (s1 & Hgc & Hlt & Hnone & _).
  exists s1. split; [exact Hgc|]. split; [exact Hlt|exact Hnone].
Defined.

(** X11.  The counters never wrap.  Since the allocator hands out aligned
    addresses below [2 ^ 64], a state the operations can produce holds at
    most [2 ^ 61] objects, so the increment of [object_num] in
    [new_object] and the doubling in [gc] stay within [size_t]. *)
Theorem reachable_counters_fit (s : VM) :
  reachable s →
  Z.of_nat (size (heap s)) = object_num s ∧
  0 ≤ object_num s ≤ 2 ^ 61 ∧
  wrap (object_num s + 1) = object_num s + 1 ∧
  wrap (object_num s * 2) = object_num s * 2.
Proof.
  intros Hs. destruct (reachable_inv s Hs) as [Hwf _].
  pose proof Hwf as ((l & Hchd) & _).
  destruct (wf_count s l Hwf Hchd) as [Hlen Hb].
  destruct Hchd as (_ & _ & _ & Hnum).
  split; [lia|]. split; [done|].
  split; apply wrap_small; lia.
Qed.

Lemma reachable_counters_fit_witness :
  reachable test3_state ∧
  Z.of_nat (size (heap test3_state)) = object_num test3_state ∧
  0 ≤ object_num test3_state ≤ 2 ^ 61 ∧
  wrap (object_num test3_state + 1) = object_num test3_state + 1 ∧
  wrap (object_num test3_state * 2) = object_num test3_state * 2.
Proof.
  split; [exact reachable_test3_state|].
  exact (reachable_counters_fit _ reachable_test3_state).
Defined.

(** ** A new machine *)

(** X12.  [new_vm] aborts exactly when its allocation fails.  Otherwise it
    returns a well-formed machine with no object, an empty Root Set and the
    initial threshold; on it [vm_pop] and [vm_push_pair] abort, and [gc]
    returns at once without touching anything, whatever its budget. *)
Theorem new_vm_is_empty (malloc : gmap N Object → addr) (fuel : nat)
    (vm : addr) (stack0 : list addr) :
  length stack0 = Z.to_nat STACK_MAX →
  (new_vm vm stack0 = Fault ↔ vm = NULL) ∧
  (vm ≠ NULL →
   ∃ s, new_vm vm stack0 = Done s ∧ wf s ∧
     heap s = ∅ ∧ roots s = [] ∧ object_num s = 0 ∧
     object_max s = GC_INITIAL_THRESHOLD ∧
     vm_pop s = Fault ∧ vm_push_pair malloc (S fuel) s = Fault ∧
     gc fuel s = Done s).
Proof.
  intros Hlen. unfold new_vm.
  destruct (N.eqb_spec vm NULL) as [->|Hne]; [by split|].
  split; [by split|]. intros _. eexists. split; [done|].
  set (s := mkVM _ _ _ _ _ _).
  assert (Hwf : wf s).
  { apply (new_vm_inv vm stack0 s Hlen). unfold new_vm.
    by destruct (N.eqb_spec vm NULL). }
  split; [done|]. split; [done|]. split; [done|]. split; [done|].
  split; [done|]. split; [done|]. split; [|done].
  destruct (collect_if_full_total (S fuel) s Hwf) as [s1 Hcol].
  { simpl. rewrite map_size_empty. lia. }
  apply (vm_push_pair_fault malloc (S fuel) s s1 Hwf Hcol).
  right. simpl. lia.
Qed.

Lemma new_vm_is_empty_witness :
  length (replicate (Z.to_nat STACK_MAX) NULL) = Z.to_nat STACK_MAX ∧
  (new_vm 0%N (replicate (Z.to_nat STACK_MAX) NULL) = Fault ↔ 0%N = NULL) ∧
  new_vm 1%N (replicate (Z.to_nat STACK_MAX) NULL) = Done vm0.
Proof.
  assert (Hlen : length (replicate (Z.to_nat STACK_MAX) NULL)
                 = Z.to_nat STACK_MAX) by apply length_replicate.
  split; [exact Hlen|].
  split; [exact (proj1 (new_vm_is_empty bump 0 0%N _ Hlen))|].
  by vm_compute.
Defined.

(** ** The stress loop *)

Lemma first_fit_cases (m : gmap N Object) :
  (first_fit m = NULL) ∨
  (∃ k, (k ≤ size m)%nat ∧ first_fit m = (8 * N.of_nat (S k))%N ∧
        m !! first_fit m = None ∧ (first_fit m < ADDR_LIMIT)%N).
Proof.
  unfold first_fit, OBJECT_ALIGN.
  set (cands := (λ k, (8 * N.of_nat (S k))%N) <$> seq 0 (S (size m))).
  destruct (filter (λ a, m !! a = None) cands) as [|a rest] eqn:Hf;
    [by left|].
  destruct (N.ltb_spec a ADDR_LIMIT) as [Hlt|]; [|by left]. right.
  assert (Ha : a ∈ filter (λ a, m !! a = None) cands) by (rewrite Hf; left).
  apply list_elem_of_filter in Ha as [Hfree Ha].
  apply list_elem_of_fmap in Ha as (k & -> & Hk).
  apply elem_of_seq in Hk. exists k. split; [lia|]. done.
Qed.

Lemma first_fit_sound : malloc_sound first_fit.
Proof.
  intros m. destruct (first_fit_cases m) as [|(k & _ & Hk & Hfree & Hlt)];
    [by left|].
  right. split; [done|]. split; [rewrite Hk; unfold NULL; lia|].
  split; [done|]. rewrite Hk. unfold OBJECT_ALIGN.
  rewrite N.mul_comm. apply N.Div0.mod_mul.
Qed.

Lemma first_fit_succeeds (m : gmap N Object) :
  (size m < 512)%nat → first_fit m ≠ NULL.
Proof.
  intros Hsz. unfold first_fit, OBJECT_ALIGN.
  set (f := λ k : nat, (8 * N.of_nat (S k))%N).
  set (cands := f <$> seq 0 (S (size m))).
  destruct (filter (λ a, m !! a = None) cands) as [|a rest] eqn:Hf.
  - exfalso.
    assert (Hinj : Inj (=) (=) f) by (intros x y Hxy; unfold f in Hxy; lia).
    assert (Hnd : NoDup cands) by (apply (NoDup_fmap_2 f), NoDup_seq).
    assert (Hsub : list_to_set (C := gset N) cands ⊆ dom m).
    { intros a Ha%elem_of_list_to_set. apply elem_of_dom.
      destruct (m !! a) eqn:Hma; [eauto|].
      assert (a ∈ filter (λ a, m !! a = None) cands)
        by (by apply list_elem_of_filter).
      rewrite Hf in H. by apply elem_of_nil in H. }
    apply subseteq_size in Hsub.
    rewrite size_list_to_set, size_dom in Hsub by done.
    unfold cands in Hsub. rewrite length_fmap, length_seq in Hsub. lia.
  - assert (Ha : a ∈ filter (λ a, m !! a = None) cands) by (rewrite Hf; left).
    apply list_elem_of_filter in Ha as [_ Ha].
    apply list_elem_of_fmap in Ha as (k & -> & Hk).
    apply elem_of_seq in Hk. unfold f, ADDR_LIMIT, NULL.
    destruct (N.ltb_spec (8 * N.of_nat (S k)) (2 ^ 64)); lia.
Qed.

Lemma ints_only_rooted s a :
  ints_only (heap s) → rooted s a → a ∈ roots s.
Proof.
  intros Hints (r & Hr & Hreach).
  destruct Hreach as [|x y z (o & h & t & Ho & Hp & _) _]; [done|].
  destruct (Hints x o Ho) as [v Hv]. congruence.
Qed.

Lemma perf_inv_size s :
  perf_inv s → Z.of_nat (size (heap s)) = object_num s ∧
               object_num s ≤ 2 * STACK_MAX.
Proof.
  intros (Hwf & (_ & Hle & _) & Hmax & _).
  pose proof Hwf as ((l & Hchd) & _).
  destruct (wf_count s l Hwf Hchd) as [Hlen _].
  destruct Hchd as (_ & _ & _ & Hnum). lia.
Qed.

Lemma perf_collect fuel s :
  perf_inv s → (512 < fuel)%nat →
  ∃ s1, collect_if_full fuel s = Done s1 ∧ perf_inv s1 ∧
        object_num s1 < object_max s1.
Proof.
  intros Hinv Hfuel. destruct (perf_inv_size s Hinv) as [Hsz Hle].
  destruct Hinv as (Hwf & Hthr & Hmax & Hints).
  unfold collect_if_full, STACK_MAX in *.
  destruct (Z.eqb_spec (object_num s) (object_max s)) as [Heq|Hne].
  - destruct (gc_collected fuel s Hwf ltac:(lia)) as (s1 & Hgc & Hcol).
    exists s1. split; [done|].
    destruct (collected_threshold s s1 Hwf Hcol Hthr) as [Hthr1 Hstrict].
    pose proof Hcol as ((l' & (_ & Hnd & _ & Hnum) & Hl') & _ & _ & Hpay &
                        _ & Hmax1 & Hwf1).
    assert (Hlen : (length l' ≤ length (roots s))%nat).
    { apply submseteq_length, NoDup_submseteq; [done|].
      intros a Ha. apply ints_only_rooted; [done|]. by apply Hl'. }
    assert (Hroots : (length (roots s) ≤ 256)%nat).
    { unfold roots. rewrite length_take.
      destruct Hwf as (_ & _ & _ & [Hs Hl] & _).
      unfold STACK_MAX in *. lia. }
    pose proof Hthr as (Hthr2 & _).
    split; [|apply Hstrict; lia].
    split; [done|]. split; [done|]. split.
    + rewrite Hmax1. unfold GC_INITIAL_THRESHOLD, STACK_MAX.
      destruct (Z.eqb_spec (object_num s) 0); [lia|].
      destruct (Z.eqb_spec (object_num s1) 0); lia.
    + intros a o' Ho'. destruct (Hpay a o' Ho') as (o & Ho & Hp & _).
      destruct (Hints a o Ho) as [v Hv]. exists v. congruence.
  - exists s. split; [done|]. split; [done|]. destruct Hthr as (? & ? & ?).
    lia.
Qed.

Section Stress.

Context (malloc : gmap N Object → addr) (fuel : nat).
Hypothesis malloc_ok : malloc_sound malloc.
Hypothesis malloc_succeeds : ∀ m, (size m < 512)%nat → malloc m ≠ NULL.
Hypothesis enough_fuel : (512 < fuel)%nat.

Lemma perf_push_step s v :
  perf_inv s → stack_size s < STACK_MAX →
  ∃ s' p, vm_push_int malloc fuel s v = Done (s', p) ∧ perf_inv s' ∧
          stack_size s' = stack_size s + 1.
Proof.
  intros Hinv Hlt.
  destruct (perf_collect fuel s Hinv enough_fuel) as (s1 & Hcol & Hinv1 & Hroom).
  destruct (perf_inv_size s1 Hinv1) as [Hsz1 _].
  pose proof Hinv as (Hwf & _). pose proof Hinv1 as (Hwf1 & Hthr1 & Hmax1 & Hints1).
  assert (Hnn : malloc (heap s1) ≠ NULL).
  { apply malloc_succeeds. unfold STACK_MAX in *. lia. }
  destruct (vm_push_int_result_wf malloc fuel s v s1) as [Hfresh Hwf'];
    try done.
  rewrite (vm_push_int_run malloc _ _ v _ Hwf Hcol).
  destruct (N.eqb_spec (malloc (heap s1)) NULL) as [|_]; [done|].
  destruct (Z.ltb_spec (stack_size s) STACK_MAX) as [_|]; [|lia].
  eexists _, _. split; [done|]. split; [|done].
  split; [done|]. simpl. split.
  { destruct Hthr1 as (? & ? & ?). unfold threshold_inv. simpl.
    split; [done|]. split; lia. }
  split; [done|].
  intros a o Ho. apply lookup_insert_Some in Ho as [[_ <-]|[_ Ho]].
  - by exists v.
  - by apply (Hints1 a).
Qed.

Lemma perf_push_spec (i : Z) : ∀ (n : nat) (j : Z) (s : VM),
  perf_inv s → stack_size s + Z.of_nat n ≤ STACK_MAX →
  ∃ s', perf_push malloc fuel s i j n = Done s' ∧ perf_inv s' ∧
        stack_size s' = stack_size s + Z.of_nat n.
Proof.
  induction n as [|n IH]; intros j s Hinv Hroom; simpl.
  - exists s. split; [done|]. split; [done|]. lia.
  - destruct (perf_push_step s (to_int (wrap (i + j))) Hinv)
      as (s1 & p & Hop & Hinv1 & Hss1); [lia|].
    rewrite (bind_Done_eq _ _ _ Hop). simpl.
    destruct (IH (wrap (j + 1)) s1 Hinv1) as (s' & Hrun & Hinv' & Hss');
      [lia|].
    exists s'. split; [done|]. split; [done|]. lia.
Qed.

End Stress.

Lemma perf_pop_spec : ∀ (n : nat) (s : VM),
  perf_inv s → Z.of_nat n ≤ stack_size s →
  ∃ s', perf_pop s n = Done s' ∧ perf_inv s' ∧
        stack_size s' = stack_size s - Z.of_nat n.
Proof.
  induction n as [|n IH]; intros s Hinv Hroom; simpl.
  - exists s. split; [done|]. split; [done|]. lia.
  - pose proof Hinv as (Hwf & Hthr & Hmax & Hints).
    pose proof Hwf as (_ & _ & _ & Hstk & _).
    destruct (vm_pop_spec s Hstk) as (r & Hpop & _); [lia|].
    rewrite (bind_Done_eq _ _ _ Hpop). simpl.
    destruct (vm_pop_keeps _ _ _ Hwf Hthr Hpop) as [Hwf1 Hthr1].
    destruct (IH (with_stack_size (stack_size s - 1) s))
      as (s' & Hrun & Hinv' & Hss'); [done|simpl; lia|].
    exists s'. split; [done|]. split; [done|]. simpl in Hss'. lia.
Qed.

Lemma free_vm_empty fuel s :
  wf s → (size (heap s) < fuel)%nat →
  ∃ s', free_vm fuel s = Done s' ∧ object_num s' = 0 ∧ heap s' = ∅ ∧
        stack_size s' = 0.
Proof.
  intros Hwf Hfuel. unfold free_vm.
  assert (Hwf0 : wf (with_stack_size 0 s)).
  { apply (wf_same_heap s); try done.
    - destruct Hwf as (_ & _ & _ & [Hsz Hlen] & _).
      split; simpl; [unfold STACK_MAX; lia|done].
    - intros r. unfold roots. simpl. by intros ?%elem_of_nil. }
  destruct (gc_spec fuel (with_stack_size 0 s) Hwf0 Hfuel)
    as (s' & l' & Hgc & (Hch & Hnd & Hall & Hnum) & Hl' & _ & Hss & _).
  assert (l' = []) as ->.
  { destruct l' as [|a l']; [done|].
    destruct (proj1 (Hl' a) ltac:(left)) as (r & Hr & _).
    unfold roots in Hr. simpl in Hr. by apply elem_of_nil in Hr. }
  exists s'. split; [done|]. split; [done|]. split; [|done].
  apply map_empty. intros a. apply eq_None_not_Some.
  intros Ha%Hall. by apply elem_of_nil in Ha.
Qed.

(** X13.  [perf_test] runs to its end whatever [rand()] returns: provided
    the allocator does not fail while fewer than 512 objects are live, no
    push overflows the stack and no pop underflows it, after the thousand
    rounds the stack is empty and at most 512 objects are in the store, and
    [free_vm] then leaves no object at all. *)
Theorem perf_test_ends_empty (malloc : gmap N Object → addr) (fuel : nat)
    (rand : Z → Z) (vm : addr) (stack0 : list addr) :
  malloc_sound malloc →
  (∀ m, (size m < 512)%nat → malloc m ≠ NULL) →
  (512 < fuel)%nat →
  (∀ i, 0 ≤ rand i) →
  vm ≠ NULL → length stack0 = Z.to_nat STACK_MAX →
  ∃ s s1 s',
    new_vm vm stack0 = Done s ∧
    perf_loop malloc fuel rand s (seqZ 0 1000) = Done s1 ∧
    stack_size s1 = 0 ∧ object_num s1 ≤ 2 * STACK_MAX ∧
    free_vm fuel s1 = Done s' ∧
    perf_test malloc fuel rand vm stack0 = Done s' ∧
    object_num s' = 0 ∧ heap s' = ∅ ∧ stack_size s' = 0.
Proof.
  intros Hmalloc Hsucc Hfuel Hrand Hvm Hlen.
  assert (Hround : ∀ s i, perf_inv s → stack_size s = 0 →
            ∃ s', perf_round malloc fuel s i (rand i) = Done s' ∧
                  perf_inv s' ∧ stack_size s' = 0).
  { intros s i Hinv Hss. unfold perf_round.
    pose proof (Z.rem_bound_pos (rand i) STACK_MAX (Hrand i) ltac:(done))
      as Hrem.
    unfold STACK_MAX in Hrem.
    rewrite wrap_small by (unfold STACK_MAX; lia).
    destruct (perf_push_spec malloc fuel Hmalloc Hsucc Hfuel i
                (Z.to_nat (Z.rem (rand i) STACK_MAX + 1)) 0 s Hinv)
      as (s1 & Hpush & Hinv1 & Hss1); [unfold STACK_MAX in *; lia|].
    rewrite (bind_Done_eq _ _ _ Hpush).
    destruct (perf_pop_spec (Z.to_nat (Z.rem (rand i) STACK_MAX + 1)) s1
                Hinv1) as (s2 & Hpop & Hinv2 & Hss2); [lia|].
    exists s2. split; [done|]. split; [done|]. lia. }
  assert (Hloop : ∀ idx s, perf_inv s → stack_size s = 0 →
            ∃ s', perf_loop malloc fuel rand s idx = Done s' ∧
                  perf_inv s' ∧ stack_size s' = 0).
  { induction idx as [|i idx IH]; intros s Hinv Hss; simpl; [eauto|].
    destruct (Hround s i Hinv Hss) as (s1 & Hrun & Hinv1 & Hss1).
    rewrite (bind_Done_eq _ _ _ Hrun). by apply IH. }
  assert (∃ s, new_vm vm stack0 = Done s) as [s Hs].
  { unfold new_vm. destruct (N.eqb_spec vm NULL); [done|eauto]. }
  destruct (new_vm_inv vm stack0 s Hlen Hs) as [Hwf Hthr].
  assert (perf_inv s ∧ stack_size s = 0) as [Hinv Hss].
  { unfold new_vm in Hs. destruct (vm =? NULL)%N; [done|].
    inversion Hs; subst s. split; [|done].
    split; [done|]. split; [done|]. split; [done|].
    intros a o. simpl. by rewrite lookup_empty. }
  destruct (Hloop (seqZ 0 1000) s Hinv Hss) as (s1 & Hrun & Hinv1 & Hss1).
  destruct (perf_inv_size s1 Hinv1) as [Hsz1 Hle1].
  destruct (free_vm_empty fuel s1) as (s' & Hfree & Hn' & Hh' & Hss');
    [apply Hinv1|unfold STACK_MAX in *; lia|].
  exists s, s1, s'. split; [done|]. split; [done|]. split; [done|].
  split; [done|]. split; [done|]. split; [|done].
  unfold perf_test. rewrite (bind_Done_eq _ _ _ Hs).
  by rewrite (bind_Done_eq _ _ _ Hrun).
Qed.

Lemma perf_test_ends_empty_witness :
  malloc_sound first_fit ∧
  (∀ m : gmap N Object, (size m < 512)%nat → first_fit m ≠ NULL) ∧
  (512 < 513)%nat ∧ (∀ i : Z, 0 ≤ Z.abs i) ∧ 1%N ≠ NULL ∧
  length (replicate (Z.to_nat STACK_MAX) NULL) = Z.to_nat STACK_MAX ∧
  ∃ s', perf_test first_fit 513 Z.abs 1%N
          (replicate (Z.to_nat STACK_MAX) NULL) = Done s' ∧
        object_num s' = 0 ∧ heap s' = ∅ ∧ stack_size s' = 0.
Proof.
  assert (Hfuel : (512 < 513)%nat) by lia.
  assert (Hrand : ∀ i : Z, 0 ≤ Z.abs i) by (intros i; lia).
  assert (Hvm : 1%N ≠ NULL) by done.
  assert (Hlen : length (replicate (Z.to_nat STACK_MAX) NULL)
                 = Z.to_nat STACK_MAX) by apply length_replicate.
  split; [exact first_fit_sound|]. split; [exact first_fit_succeeds|].
  split; [exact Hfuel|]. split; [exact Hrand|]. split; [exact Hvm|].
  split; [exact Hlen|].
  destruct (perf_test_ends_empty first_fit 513 Z.abs 1%N _
              first_fit_sound first_fit_succeeds Hfuel Hrand Hvm Hlen)
    as (s & s1 & s' & _ & _ & _ & _ & _ & Hrun & Hn & Hh & Hss).
  exists s'. split; [exact Hrun|]. split; [exact Hn|].
  split; [exact Hh|exact Hss].
Defined.
